(** * darpa_planning_lib: the A* planner's node model, open list and search

    The first part is a shallow embedding of
    [include/darpa_planning_lib/astar_planner.h], the one source file: the
    search node ([Node]), its comparison operators, the hash of the closed
    list ([NodeHasher]), the ordering of the open list ([NodeCompare]) and
    the open list itself ([AstarPriorityQueue]).  The header only declares
    the member functions of [AstarPlanner]; the module [Planner] models the
    search and the safety inflation from the specification.  The properties
    follow the definitions.

    Conventions.
    - [double] is IEEE binary64, i.e. Rocq's primitive [float]; [a > b] on
      doubles is [PrimFloat.ltb b a].
    - [octomap::OcTreeKey] holds three [key_type] components ([k[0..2]],
      16-bit unsigned in octomap).  They are modelled as [Z]; the sums that
      the header forms are computed in [int], where three 16-bit values
      cannot overflow, so [Z.add] is exact.
    - [std::vector<Node>] is [list Node], front of the vector first. *)

From Stdlib Require Import ZArith Floats Bool.
From stdpp Require Import base option list sorting gmap.

Local Open Scope Z_scope.

(** ** The order of [double]

    [a > b] is false as soon as one side is not a number, so "not greater"
    is an order only on numbers.  The comparisons of primitive floats are
    specified on [spec_float]; [sf_rank] maps the numbers among them to
    triples whose lexicographic order is the order of the numbers. *)

Module FloatOrder.

Definition sf_rank (f : spec_float) : Z * Z * Z :=
  match f with
  | S754_nan => (0, 0, 0)
  | S754_zero _ => (0, 0, 0)
  | S754_infinity s => if s then (-2, 0, 0) else (2, 0, 0)
  | S754_finite s m e => if s then (-1, - e, - Z.pos m) else (1, e, Z.pos m)
  end.

Definition lex_lt (a b : Z * Z * Z) : Prop :=
  let '(a1, a2, a3) := a in
  let '(b1, b2, b3) := b in
  a1 < b1 \/ (a1 = b1 /\ (a2 < b2 \/ (a2 = b2 /\ a3 < b3))).

Definition sf_is_nan (f : spec_float) : bool :=
  match f with S754_nan => true | _ => false end.

(** [x != x], true of the NaNs only. *)
Definition is_nan (x : float) : bool := negb (PrimFloat.eqb x x).

End FloatOrder.

(** ** octomap types used by the header *)

Module Octomap.

(** [octomap::OcTreeKey]: the array [k[3]]. *)
Record OcTreeKey : Type := mkKey { k0 : Z; k1 : Z; k2 : Z }.

(** [octomap::point3d]: three coordinates.  The header's code copies
    poses and never computes with them. *)
Record point3d : Type := mkPoint { px : float; py : float; pz : float }.

Definition origin : point3d := mkPoint 0%float 0%float 0%float.

Definition key_to_tuple (k : OcTreeKey) : Z * Z * Z := (k0 k, k1 k, k2 k).
Definition key_of_tuple (t : Z * Z * Z) : OcTreeKey :=
  let '(a, b, c) := t in mkKey a b c.

Definition key_of_to_tuple (k : OcTreeKey) : key_of_tuple (key_to_tuple k) = k :=
  match k with mkKey _ _ _ => eq_refl end.

#[export] Instance OcTreeKey_eq_dec : EqDecision OcTreeKey.
Proof. solve_decision. Defined.

#[export] Instance OcTreeKey_countable : Countable OcTreeKey :=
  inj_countable' key_to_tuple key_of_tuple key_of_to_tuple.

End Octomap.

Import Octomap.

(** ** [struct Node] and its operators *)

Record Node : Type := mkNode {
  key         : OcTreeKey;
  pose        : point3d;
  parent_key  : OcTreeKey;
  g_cost      : float;   (* overall node cost *)
  h_cost      : float;   (* heuristic cost *)
  f_cost      : float;   (* cost from start *)
  unnorm_cost : float;
  obs_cost    : float;
  path_cost   : float;
  n_nodes     : Z        (* number of nodes visited from start *)
}.

(** A default-initialised [Node] with the given key: every cost is [0]. *)
Definition node_at (k : OcTreeKey) : Node :=
  mkNode k origin (mkKey 0 0 0) 0%float 0%float 0%float 0%float 0%float 0%float 0.

Definition with_g_cost (n : Node) (g : float) : Node :=
  mkNode (key n) (pose n) (parent_key n) g (h_cost n) (f_cost n)
         (unnorm_cost n) (obs_cost n) (path_cost n) (n_nodes n).

Definition with_f_cost (n : Node) (f : float) : Node :=
  mkNode (key n) (pose n) (parent_key n) (g_cost n) (h_cost n) f
         (unnorm_cost n) (obs_cost n) (path_cost n) (n_nodes n).

Definition with_h_cost (n : Node) (h : float) : Node :=
  mkNode (key n) (pose n) (parent_key n) (g_cost n) h (f_cost n)
         (unnorm_cost n) (obs_cost n) (path_cost n) (n_nodes n).

(** [key.k[0] + key.k[1] + key.k[2]]. *)
Definition key_sum (k : OcTreeKey) : Z := k0 k + k1 k + k2 k.

(** [(a.k[0] != b.k[0]) || (a.k[1] != b.k[1]) || (a.k[2] != b.k[2])]. *)
Definition keys_differ (a b : OcTreeKey) : bool :=
  negb (k0 a =? k0 b) || negb (k1 a =? k1 b) || negb (k2 a =? k2 b).

(** [(a.k[0] == b.k[0]) && (a.k[1] == b.k[1]) && (a.k[2] == b.k[2])]. *)
Definition keys_equal (a b : OcTreeKey) : bool :=
  (k0 a =? k0 b) && (k1 a =? k1 b) && (k2 a =? k2 b).

Module NodeMember.
(** The member operators [Node::operator==], [Node::operator<] and
    [Node::operator>]; [a] is [*this]. *)
Definition op_eq (a b : Node) : bool := keys_equal (key a) (key b).

Definition op_lt (a b : Node) : bool :=
  (key_sum (key a) <? key_sum (key b)) && keys_differ (key a) (key b).

Definition op_gt (a b : Node) : bool :=
  (key_sum (key a) >? key_sum (key b)) && keys_differ (key a) (key b).
End NodeMember.

(** [struct NodeCompare]: [lhs.g_cost > rhs.g_cost]. *)
Definition NodeCompare (lhs rhs : Node) : bool :=
  PrimFloat.ltb (g_cost rhs) (g_cost lhs).

(** The free [operator<(const Node&, const Node&)]. *)
Definition node_lt (lhs rhs : Node) : bool :=
  (key_sum (key lhs) <? key_sum (key rhs)) && keys_differ (key lhs) (key rhs).

(** The free [operator==(const Node&, const Node&)]. *)
Definition node_eq (lhs rhs : Node) : bool := keys_equal (key lhs) (key rhs).

(** ** [struct NodeHasher] *)

Section Hasher.

(** [std::hash<int>] is implementation defined; it is a parameter. *)
Variable hash_int : Z -> Z.

(** [std::size_t] is 64 bits wide: a left shift drops the bits above. *)
Definition size_t_bits : Z := 64.
Definition size_t_shl (x n : Z) : Z := Z.land (Z.shiftl x n) (Z.ones size_t_bits).

(** [((h(k[0]) ^ (h(k[1]) << 1)) >> 1) ^ (h(k[2]) << 1)]. *)
Definition NodeHasher (n : Node) : Z :=
  Z.lxor
    (Z.shiftr (Z.lxor (hash_int (k0 (key n))) (size_t_shl (hash_int (k1 (key n))) 1)) 1)
    (size_t_shl (hash_int (k2 (key n))) 1).

End Hasher.

(** libstdc++ and libc++ hash an [int] to itself, as a [size_t]. *)
Definition hash_int_identity (x : Z) : Z := x mod 2 ^ size_t_bits.


(** ** [class AstarPriorityQueue]

    The class derives from
    [std::priority_queue<Node, std::vector<Node>, NodeCompare>]: its state is
    the protected container [c], a vector kept as a binary heap for
    [NodeCompare] by the three STL heap algorithms.  The algorithms are part
    of the C++ library, not of this repository, so they are parameters; what
    the C++ standard fixes about them (each only rearranges the range, and
    [std::pop_heap] moves the former front to the back) is [HeapContract]. *)

Module AstarPriorityQueue.

Record HeapAlgorithms : Type := {
  make_heap : list Node -> list Node;   (* std::make_heap(c.begin(), c.end(), comp) *)
  push_heap : list Node -> list Node;   (* std::push_heap(c.begin(), c.end(), comp) *)
  pop_heap  : list Node -> list Node    (* std::pop_heap(c.begin(), c.end(), comp)  *)
}.

Record HeapContract (H : HeapAlgorithms) : Prop := {
  make_heap_perm : forall c, make_heap H c ≡ₚ c;
  push_heap_perm : forall c, push_heap H c ≡ₚ c;
  pop_heap_back  : forall x c, exists c', pop_heap H (x :: c) = c' ++ [x] /\ c' ≡ₚ c
}.

(** [std::is_heap(c.begin(), c.end(), comp)]: no element compares after its
    parent, i.e. [comp(c[(i-1)/2], c[i])] is false for every [i >= 1]. *)
Definition heap_parent (i : nat) : nat := ((i - 1) / 2)%nat.

Definition heap_ok_at (c : list Node) (i : nat) : bool :=
  match c !! heap_parent i, c !! i with
  | Some p, Some x => negb (NodeCompare p x)
  | _, _ => true
  end.

Definition is_heap (c : list Node) : bool :=
  forallb (heap_ok_at c) (seq 1 (length c - 1)).

(** [struct node_equal]: the predicate built from [n_a], applied to [n_b]. *)
Definition node_equal (n_a n_b : Node) : bool :=
  (k0 (key n_b) =? k0 (key n_a)) && (k1 (key n_b) =? k1 (key n_a))
  && (k2 (key n_b) =? k2 (key n_a)).

(** [std::find_if]: the position and the element of the first match, [None]
    for [c.end()]. *)
Fixpoint find_if (p : Node -> bool) (c : list Node) : option (nat * Node) :=
  match c with
  | [] => None
  | x :: c' =>
      if p x then Some (O, x)
      else match find_if p c' with
           | Some (i, y) => Some (S i, y)
           | None => None
           end
  end.

(** [c.erase(it)]. *)
Definition erase (c : list Node) (it : nat) : list Node := delete it c.

Section Queue.

Variable H : HeapAlgorithms.

(** Inherited [push]: [c.push_back(x); std::push_heap(...)]. *)
Definition push (c : list Node) (x : Node) : list Node := push_heap H (c ++ [x]).

(** Inherited [top]: [c.front()]; it is undefined on an empty queue. *)
Definition top (c : list Node) : option Node := head c.

(** Inherited [pop]: [std::pop_heap(...); c.pop_back()]. *)
Definition pop (c : list Node) : list Node := removelast (pop_heap H c).

Definition empty (c : list Node) : bool := match c with [] => true | _ => false end.

(** Taking the minimum off the queue, as a caller does it: [top()] then
    [pop()]. *)
Definition pop_min (c : list Node) : option (Node * list Node) :=
  match top c with
  | Some t => Some (t, pop c)
  | None => None
  end.

(** [int conditional_remove(const Node& value, double cost_value)]: the
    container afterwards and the returned code. *)
Definition conditional_remove (c : list Node) (value : Node) (cost_value : float)
  : list Node * Z :=
  match find_if (node_equal value) c with
  | Some (it, n) =>
      if PrimFloat.ltb cost_value (f_cost n)      (* it->f_cost > cost_value *)
      then (make_heap H (erase c it), 1)          (* node removed *)
      else (c, -1)                                (* node present but not removed *)
  | None => (c, 0)                                (* node not present *)
  end.

(** [getAllNodes]: the pose of every node, in container order. *)
Definition getAllNodes (c : list Node) : list point3d := map pose c.

End Queue.

(** The first entry of the container with key [K], the one [std::find_if]
    stops at: [c] is [l1 ++ n :: l2], [n] has the key and no node of [l1]
    has it. *)
Definition first_entry (K : OcTreeKey) (c l1 : list Node) (n : Node) (l2 : list Node)
  : Prop :=
  c = l1 ++ n :: l2 /\ key n = K /\ Forall (fun m => key m <> K) l1.

(** A reference instance of the heap algorithms, for the examples: each
    sorts the range by [g_cost], which leaves the lowest cost at the front
    (a sorted range of numbers is in heap order). *)
Definition cost_le (a b : Node) : Prop := NodeCompare a b = false.

#[export] Instance cost_le_dec (a b : Node) : Decision (cost_le a b).
Proof. unfold cost_le. apply _. Defined.

Definition sort_heap_algorithms : HeapAlgorithms := {|
  make_heap c := merge_sort cost_le c;
  push_heap c := merge_sort cost_le c;
  pop_heap c :=
    match c with
    | [] => []
    | x :: c' => merge_sort cost_le c' ++ [x]
    end
|}.

(** The number of entries of the container with key [K]. *)
Definition count_key (K : OcTreeKey) (c : list Node) : nat :=
  length (filter (fun n => key n = K) c).

(** A node whose ordering cost is a number. *)
Definition number (n : Node) : Prop := FloatOrder.is_nan (g_cost n) = false.

(** What the C++ standard fixes about the order the heap algorithms leave:
    the range they were asked to arrange is in heap order afterwards.  The
    standard asks for [comp] to be a strict weak ordering, which
    [NodeCompare] is on numbers. *)
Record HeapOrderContract (H : HeapAlgorithms) : Prop := {
  make_heap_is_heap : forall c, Forall number c -> is_heap (make_heap H c) = true;
  push_heap_is_heap : forall c x,
    Forall number (c ++ [x]) -> is_heap c = true -> is_heap (push_heap H (c ++ [x])) = true;
  pop_heap_is_heap : forall c c' x,
    Forall number c -> is_heap c = true -> pop_heap H c = c' ++ [x] -> is_heap c' = true
}.

(** The containers a queue can hold: what is built from the empty queue by
    pushes of nodes whose ordering cost is a number, pops of a non-empty
    queue and conditional removals. *)
Inductive reachable (H : HeapAlgorithms) : list Node -> Prop :=
  | reachable_empty : reachable H []
  | reachable_push c x : reachable H c -> number x -> reachable H (push H c x)
  | reachable_pop c : reachable H c -> c <> [] -> reachable H (pop H c)
  | reachable_remove c value cost :
      reachable H c -> reachable H (conditional_remove H c value cost).1.

End AstarPriorityQueue.

(** * The planner, modelled from the specification

    The header only declares [AstarPlanner]'s member functions; their bodies
    are not part of the sources.  The definitions of this module follow the
    specification's description of the search (sections 3, 4.1, 6 and 7) and
    use the [Node] and [AstarPriorityQueue] of the header for the search
    node and the open list. *)

Module Planner.

Import AstarPriorityQueue.

(** Modelled from the spec: the four occupancy states the occupancy-map
    adapter reports for a key (section 6). *)
Inductive Occupancy : Type := Free | Occupied | Unknown | OutOfBounds.

(** Modelled from the spec: the connectivity mode (section 6). *)
Inductive Connectivity : Type := Connected6 | Connected26.

(** Modelled from the spec: the error kinds of a planning call (section 7). *)
Inductive ErrorKind : Type := InvalidEndpoint | Unreachable | Timeout.

(** Modelled from the spec: a planning call ends with a node path or with
    an error kind (section 7). *)
Inductive SearchOutcome : Type :=
  | Found (path : list Node)
  | Failed (e : ErrorKind).

(** Modelled from the spec: the occupancy-map adapter, a queried service
    (section 6). *)
Record OccupancyMapAdapter : Type := {
  worldToKey : point3d -> OcTreeKey;
  keyToWorld : OcTreeKey -> point3d;
  occupancy : OcTreeKey -> Occupancy;
  nearestObstacleDistance : point3d -> float;
  resolution : float
}.

(** Modelled from the spec: the axis-aligned extents of the search region,
    as the smallest and the largest key on every axis (section 3). *)
Record GridBounds : Type := { min_key : OcTreeKey; max_key : OcTreeKey }.

(** Modelled from the spec: the planner configuration (section 6), with the
    policies the spec leaves open: the obstacle-proximity penalty as a
    function of the distance to the nearest obstacle (section 9), the cost
    that ranks the nodes found so far when the search stops at the timeout,
    the radius of the bounded neighbourhood searched for a substitute goal
    and the goal-distance tolerance of that mode (section 4.1). *)
Record Config : Type := {
  connectivity : Connectivity;
  enablePlanningToUnreachableGoal : bool;
  planningTimeout : float;
  safeDist : float;
  clearingDist : float;
  breakAtTimeout : bool;
  unknownIsTraversable : bool;
  proximityPenalty : float -> float;
  fallbackCost : Node -> float;
  goalSearchRadius : nat;
  goalTolerance : float
}.

(** ** Keys, moves and adjacency *)

(** Modelled from the spec: an offset move between keys (section 4.1). *)
Definition Offset : Type := Z * Z * Z.

(** Modelled from the spec: the candidate key of a move (section 4.1). *)
Definition key_add (k : OcTreeKey) (d : Offset) : OcTreeKey :=
  let '(dx, dy, dz) := d in mkKey (k0 k + dx) (k1 k + dy) (k2 k + dz).

(** Modelled from the spec: the 6 face moves and the 26 face, edge and
    corner moves (glossary, connectivity mode). *)
Definition moves6 : list Offset :=
  [(1, 0, 0); (-1, 0, 0); (0, 1, 0); (0, -1, 0); (0, 0, 1); (0, 0, -1)].

Definition unit_steps : list Z := [-1; 0; 1].

Definition moves26 : list Offset :=
  filter (fun d => d <> (0, 0, 0))
    (flat_map (fun dx => flat_map (fun dy => map (fun dz => (dx, dy, dz)) unit_steps)
                           unit_steps) unit_steps).

Definition moves (c : Connectivity) : list Offset :=
  match c with Connected6 => moves6 | Connected26 => moves26 end.

(** Modelled from the spec: the distance of two keys on each of the three
    axes (section 8). *)
Definition axis_distances (a b : OcTreeKey) : list Z :=
  [Z.abs (k0 a - k0 b); Z.abs (k1 a - k1 b); Z.abs (k2 a - k2 b)].

(** Modelled from the spec: adjacency under a connectivity mode (section 8):
    distance at most 1 on each axis for 26-connected; exactly one axis
    differing, by 1, for 6-connected. *)
Definition adjacent (c : Connectivity) (a b : OcTreeKey) : bool :=
  match c with
  | Connected26 => forallb (fun d => d <=? 1) (axis_distances a b)
  | Connected6 =>
      Nat.eqb (length (filter (fun d : Z => d <> 0) (axis_distances a b))) 1
      && forallb (fun d => (d =? 0) || (d =? 1)) (axis_distances a b)
  end.

(** Modelled from the spec: the same adjacency, spelled out on the
    coordinates (section 8). *)
Definition adjacent_prop (c : Connectivity) (a b : OcTreeKey) : Prop :=
  match c with
  | Connected26 =>
      Z.abs (k0 a - k0 b) <= 1 /\ Z.abs (k1 a - k1 b) <= 1 /\ Z.abs (k2 a - k2 b) <= 1
  | Connected6 =>
      (Z.abs (k0 a - k0 b) = 1 /\ k1 a = k1 b /\ k2 a = k2 b)
      \/ (k0 a = k0 b /\ Z.abs (k1 a - k1 b) = 1 /\ k2 a = k2 b)
      \/ (k0 a = k0 b /\ k1 a = k1 b /\ Z.abs (k2 a - k2 b) = 1)
  end.

(** Modelled from the spec: a fully connected key path, every consecutive
    pair adjacent (section 4.4). *)
Fixpoint fully_connected (c : Connectivity) (l : list OcTreeKey) : bool :=
  match l with
  | a :: ((b :: _) as rest) => adjacent c a b && fully_connected c rest
  | _ => true
  end.

(** Modelled from the spec: a key within the extents of the search region
    (section 3). *)
Definition within_bounds (b : GridBounds) (k : OcTreeKey) : bool :=
  (k0 (min_key b) <=? k0 k) && (k0 k <=? k0 (max_key b))
  && (k1 (min_key b) <=? k1 k) && (k1 k <=? k1 (max_key b))
  && (k2 (min_key b) <=? k2 k) && (k2 k <=? k2 (max_key b)).

(** ** Costs *)

(** Modelled from the spec: the Euclidean and the Manhattan distance of two
    keys, in voxels (section 4.1). *)
Definition Z_to_float (z : Z) : float :=
  if z <? 0 then PrimFloat.opp (PrimFloat.of_uint63 (Uint63.of_Z (- z)))
  else PrimFloat.of_uint63 (Uint63.of_Z z).

Definition squared_distance (a b : OcTreeKey) : Z :=
  (k0 a - k0 b) * (k0 a - k0 b) + (k1 a - k1 b) * (k1 a - k1 b)
  + (k2 a - k2 b) * (k2 a - k2 b).

Definition euclidean (a b : OcTreeKey) : float :=
  PrimFloat.sqrt (Z_to_float (squared_distance a b)).

Definition manhattan (a b : OcTreeKey) : float :=
  Z_to_float (Z.abs (k0 a - k0 b) + Z.abs (k1 a - k1 b) + Z.abs (k2 a - k2 b)).

(** Modelled from the spec: the heuristic to the goal is Euclidean, or
    Manhattan when the connectivity mode is 6-connected (section 4.1). *)
Definition heuristic (c : Connectivity) (k goal : OcTreeKey) : float :=
  match c with Connected6 => manhattan k goal | Connected26 => euclidean k goal end.

(** ** Pruning tables *)

Definition nonzero_components (d : Offset) : nat :=
  let '(dx, dy, dz) := d in
  length (filter (fun x : Z => x <> 0) [dx; dy; dz]).

(** Modelled from the spec: the orthogonal moves a diagonal move is made
    of; their cells are the ones it cuts across (section 4.1). *)
Definition orthogonal_parts (d : Offset) : list Offset :=
  let '(dx, dy, dz) := d in
  filter (fun o => o <> (0, 0, 0)) [(dx, 0, 0); (0, dy, 0); (0, 0, dz)].

(** Modelled from the spec: the pruning table, for every move of the mode
    the offsets of the orthogonal cells a diagonal move cuts across; built
    once, read-only during the search (sections 3 and 4.1). *)
Definition pruning_table (c : Connectivity) : list (Offset * list Offset) :=
  map (fun d => (d, if (2 <=? nonzero_components d)%nat then orthogonal_parts d else []))
      (moves c).

(** ** The search state *)

(** Modelled from the spec: the frontier state (section 3): the open list,
    here the header's [AstarPriorityQueue] container, the closed set as a
    map from a key to the node finalised for it, and the best node found so
    far, kept for the timeout fallback (section 4.1). *)
Record SearchState : Type := {
  open_list : list Node;
  closed_list : gmap OcTreeKey Node;
  best_node : Node
}.

Section Search.

Variable H : HeapAlgorithms.
Variable octree : OccupancyMapAdapter.
Variable bounds : GridBounds.
Variable cfg : Config.

(** The wall clock: the time elapsed since the search began, as the [n]-th
    poll reads it.  The search polls it once per iteration (section 5). *)
Variable elapsed : nat -> float.

(** Modelled from the spec: the occupancy query of the adapter (section 6). *)
Definition is_occupied (k : OcTreeKey) : bool :=
  match occupancy octree k with Occupied => true | _ => false end.

(** Modelled from the spec: unknown keys are non-traversable by default,
    configurable (section 6). *)
Definition traversable (k : OcTreeKey) : bool :=
  match occupancy octree k with
  | Free => true
  | Unknown => unknownIsTraversable cfg
  | Occupied | OutOfBounds => false
  end.

(** Modelled from the spec: a key is valid when it lies within the grid
    bounds and is traversable; keys outside the bounds are invalid
    regardless of occupancy (section 3).  The header declares [isNodeValid]
    and [checkLimits] without bodies. *)
Definition isNodeValid (k : OcTreeKey) : bool :=
  within_bounds bounds k && traversable k.

(** Modelled from the spec: the diagonal-pruning rule (section 4.1): the
    orthogonal cells the move cuts across are not occupied. *)
Definition move_legal (k : OcTreeKey) (cells : list Offset) : bool :=
  forallb (fun o => negb (is_occupied (key_add k o))) cells.

(** Modelled from the spec: the nearest-obstacle distance of a key, queried
    at its world position (section 6). *)
Definition obstacle_distance (k : OcTreeKey) : float :=
  nearestObstacleDistance octree (keyToWorld octree k).

(** Modelled from the spec: the start node is seeded with [gCost = 0]
    (section 4.1); it is its own parent. *)
Definition start_node (start goal : OcTreeKey) : Node :=
  let h := heuristic (connectivity cfg) start goal in
  mkNode start (keyToWorld octree start) start
         0%float h (0 + h)%float 0%float 0%float 0%float 0.

(** Modelled from the spec: the cost of an accepted successor (section 4.1):
    the accumulated cost grows by the Euclidean step and the obstacle
    penalty, [fCost = gCost + hCost] (section 3). *)
Definition successor (goal : OcTreeKey) (cur : Node) (k : OcTreeKey) : Node :=
  let obs := proximityPenalty cfg (obstacle_distance k) in
  let g := (g_cost cur + euclidean (key cur) k + obs)%float in
  let h := heuristic (connectivity cfg) k goal in
  mkNode k (keyToWorld octree k) (key cur) g h (g + h)%float
         0%float obs 0%float (n_nodes cur + 1).

(** Modelled from the spec: successor generation (section 4.1): each move
    of the mode, rejected when the candidate key is outside the bounds,
    occupied, or fails the diagonal-pruning rule. *)
Definition getPossibleSuccessors (goal : OcTreeKey) (cur : Node) : list Node :=
  omap (fun entry : Offset * list Offset =>
          let k := key_add (key cur) (fst entry) in
          if isNodeValid k && move_legal (key cur) (snd entry)
          then Some (successor goal cur k) else None)
       (pruning_table (connectivity cfg)).

(** Modelled from the spec: the closed set holds the key with an equal or
    lower cost (section 4.1). *)
Definition closed_no_worse (closed : gmap OcTreeKey Node) (n : Node) : bool :=
  match closed !! key n with
  | Some c => PrimFloat.leb (g_cost c) (g_cost n)
  | None => false
  end.

(** Modelled from the spec: what happens to one successor (section 4.1):
    discarded when the closed set holds its key with an equal or lower
    cost; an open entry of the same key is replaced only when the new cost
    is strictly better (conditional removal, then reinsertion). *)
Definition offer (closed : gmap OcTreeKey Node) (open : list Node) (s : Node)
  : list Node :=
  if closed_no_worse closed s then open
  else
    let '(open', code) := conditional_remove H open s (f_cost s) in
    if code =? -1 then open' else push H open' s.

(** Modelled from the spec: path reconstruction by repeated lookup of the
    parent key in the closed set, from the last node back to the start
    (section 9).  The path is returned start first. *)
Fixpoint backtrack (fuel : nat) (closed : gmap OcTreeKey Node) (start : OcTreeKey)
    (n : Node) (acc : list Node) : list Node :=
  if decide (key n = start) then n :: acc
  else
    match fuel with
    | O => n :: acc
    | S fuel' =>
        match closed !! parent_key n with
        | Some p => backtrack fuel' closed start p (n :: acc)
        | None => n :: acc
        end
    end.

Definition reconstruct (closed : gmap OcTreeKey Node) (start : OcTreeKey) (n : Node)
  : list Node :=
  backtrack (size closed) closed start n [].

(** Modelled from the spec: the goal test (section 4.1): the goal key, or
    the goal-distance tolerance when planning to an unreachable goal. *)
Definition isNodeGoal (goal : OcTreeKey) (n : Node) : bool :=
  bool_decide (key n = goal)
  || (enablePlanningToUnreachableGoal cfg
      && PrimFloat.leb (euclidean (key n) goal) (goalTolerance cfg)).

(** Modelled from the spec: the search loop (section 4.1).  Every iteration
    polls the clock; past the timeout it returns the path to the best node
    found so far when [breakAtTimeout] is set and fails otherwise.  Else it
    pops the lowest-priority node (an empty frontier means the goal is
    unreachable), skips it when the closed set holds its key with an equal
    or better cost, finalises it otherwise, stops when it is the goal, and
    offers its successors to the frontier.  [None]: [fuel] iterations were
    not enough. *)
Fixpoint search_loop (fuel iter : nat) (start goal : OcTreeKey) (st : SearchState)
  : option SearchOutcome :=
  match fuel with
  | O => None
  | S fuel' =>
      if PrimFloat.ltb (planningTimeout cfg) (elapsed iter) then
        Some (if breakAtTimeout cfg
              then Found (reconstruct (closed_list st) start (best_node st))
              else Failed Timeout)
      else
        match pop_min H (open_list st) with
        | None => Some (Failed Unreachable)
        | Some (cur, open') =>
            if closed_no_worse (closed_list st) cur then
              search_loop fuel' (S iter) start goal
                {| open_list := open'; closed_list := closed_list st;
                   best_node := best_node st |}
            else
              let closed' := <[key cur := cur]> (closed_list st) in
              let best' :=
                if PrimFloat.ltb (fallbackCost cfg cur) (fallbackCost cfg (best_node st))
                then cur else best_node st in
              if isNodeGoal goal cur then Some (Found (reconstruct closed' start cur))
              else
                search_loop fuel' (S iter) start goal
                  {| open_list := foldl (offer closed') open' (getPossibleSuccessors goal cur);
                     closed_list := closed'; best_node := best' |}
        end
  end.

(** Modelled from the spec: the bounded neighbourhood of the goal, the keys
    of the cube of radius [r] around [k] (section 4.1). *)
Definition cube_range (r : nat) : list Z :=
  map (fun i => Z.of_nat i - Z.of_nat r) (seq 0 (2 * r + 1)).

Definition neighborhood_cube (r : nat) (k : OcTreeKey) : list OcTreeKey :=
  flat_map (fun dx => flat_map (fun dy => map (fun dz => key_add k (dx, dy, dz))
                                              (cube_range r))
                               (cube_range r)) (cube_range r).

Definition nearer (goal : OcTreeKey) (best : option OcTreeKey) (k : OcTreeKey)
  : option OcTreeKey :=
  match best with
  | None => Some k
  | Some b => if squared_distance k goal <? squared_distance b goal then Some k else Some b
  end.

(** Modelled from the spec: the substitute goal, the nearest valid key
    within a bounded neighbourhood of the literal goal (section 4.1). *)
Definition getValidNodeInNeighborhood (goal : OcTreeKey) : option OcTreeKey :=
  foldl (nearer goal) None
        (List.filter isNodeValid (neighborhood_cube (goalSearchRadius cfg) goal)).

(** Modelled from the spec: the goal key is the literal one when valid,
    else its substitute when planning to an unreachable goal is enabled
    (section 4.1). *)
Definition resolve_goal (goal : OcTreeKey) : option OcTreeKey :=
  if isNodeValid goal then Some goal
  else if enablePlanningToUnreachableGoal cfg then getValidNodeInNeighborhood goal
  else None.

(** Modelled from the spec: the frontier holds the start node, the closed
    set is empty (section 4.1). *)
Definition initial_state (start goal : OcTreeKey) : SearchState :=
  {| open_list := push H [] (start_node start goal);
     closed_list := ∅;
     best_node := start_node start goal |}.

(** Modelled from the spec: a planning call from a start to a goal point
    (sections 4.1 and 7): an invalid start, or a goal that cannot be
    resolved to a valid key, is an [InvalidEndpoint]; otherwise the search
    runs.  The header declares [getNodePath] without a body. *)
Definition getNodePath (fuel : nat) (start_point goal_point : point3d)
  : option SearchOutcome :=
  let start := worldToKey octree start_point in
  if negb (isNodeValid start) then Some (Failed InvalidEndpoint)
  else
    match resolve_goal (worldToKey octree goal_point) with
    | None => Some (Failed InvalidEndpoint)
    | Some goal => search_loop fuel 0 start goal (initial_state start goal)
    end.

(** Modelled from the spec: one iteration of the search loop past the poll
    of the clock (section 4.1): the next state of the frontier, or the
    outcome the search ends with.  It is the body of [search_loop]. *)
Definition search_step (start goal : OcTreeKey) (st : SearchState)
  : SearchState + SearchOutcome :=
  match pop_min H (open_list st) with
  | None => inr (Failed Unreachable)
  | Some (cur, open') =>
      if closed_no_worse (closed_list st) cur then
        inl {| open_list := open'; closed_list := closed_list st;
               best_node := best_node st |}
      else
        let closed' := <[key cur := cur]> (closed_list st) in
        let best' :=
          if PrimFloat.ltb (fallbackCost cfg cur) (fallbackCost cfg (best_node st))
          then cur else best_node st in
        if isNodeGoal goal cur then inr (Found (reconstruct closed' start cur))
        else
          inl {| open_list := foldl (offer closed') open' (getPossibleSuccessors goal cur);
                 closed_list := closed'; best_node := best' |}
  end.

(** The state of the frontier after [n] iterations from [st], when none of
    them ended the search. *)
Fixpoint run_steps (n : nat) (start goal : OcTreeKey) (st : SearchState)
  : option SearchState :=
  match n with
  | O => Some st
  | S n' =>
      match search_step start goal st with
      | inl st' => run_steps n' start goal st'
      | inr _ => None
      end
  end.

(** The state of the frontier when the search polls the clock for the
    [n]-th time ([n] counted from 0), if the search is still running. *)
Definition state_at (n : nat) (start goal : OcTreeKey) : option SearchState :=
  run_steps n start goal (initial_state start goal).

(** Modelled from the spec: what a search returns when the clock is past the
    timeout (section 4.1): the path to the best node found so far when
    [breakAtTimeout] is set, the [Timeout] failure otherwise. *)
Definition timeout_outcome (start : OcTreeKey) (st : SearchState) : SearchOutcome :=
  if breakAtTimeout cfg
  then Found (reconstruct (closed_list st) start (best_node st))
  else Failed Timeout.

(** *** What the search maintains

    A node is sound when its key is valid and, unless it is the start, its
    key is adjacent to its parent key.  The closed set is sound when it maps
    every key to a sound node of that key. *)
Definition node_ok (start : OcTreeKey) (n : Node) : Prop :=
  isNodeValid (key n) = true
  /\ (key n = start \/ adjacent (connectivity cfg) (parent_key n) (key n) = true).

Definition closed_ok (start : OcTreeKey) (closed : gmap OcTreeKey Node) : Prop :=
  map_Forall (fun k n => key n = k /\ node_ok start n) closed.

Definition state_ok (start : OcTreeKey) (st : SearchState) : Prop :=
  Forall (node_ok start) (open_list st)
  /\ closed_ok start (closed_list st)
  /\ node_ok start (best_node st).

(** No node the closed set holds has a lower fallback cost than the best
    node. *)
Definition best_lowest (st : SearchState) : Prop :=
  forall k n, closed_list st !! k = Some n ->
    PrimFloat.ltb (fallbackCost cfg n) (fallbackCost cfg (best_node st)) = false.

(** A node path of valid keys whose consecutive keys are adjacent. *)
Definition path_ok (path : list Node) : Prop :=
  Forall (fun n => isNodeValid (key n) = true) path
  /\ fully_connected (connectivity cfg) (map key path) = true.

End Search.

(** Modelled from the spec: the node path a planning call hands back
    (section 8): the path found, and an empty path with a failure.  The
    header declares the return type [std::vector<Node>]. *)
Definition returned_path (outcome : SearchOutcome) : list Node :=
  match outcome with
  | Found path => path
  | Failed _ => []
  end.

(** Modelled from the spec: the key path of a node path (section 3).  The
    header declares [getKeyPath] without a body. *)
Definition getKeyPath (plan : list Node) : list OcTreeKey := map key plan.

(** ** The safety inflation pass *)

Section SafePath.

Variable octree : OccupancyMapAdapter.
Variable bounds : GridBounds.
Variable cfg : Config.

(** Modelled from the spec: the safest of some keys, the one farthest from
    the obstacles (section 4.4, safest-waypoint selection). *)
Definition farther_from_obstacles (a b : OcTreeKey) : OcTreeKey :=
  if PrimFloat.ltb (obstacle_distance octree a) (obstacle_distance octree b) then b else a.

Definition safest (l : list OcTreeKey) : option OcTreeKey :=
  match l with
  | [] => None
  | k :: l' => Some (foldl farther_from_obstacles k l')
  end.

(** Modelled from the spec: the vertical drift of a relocation (section
    4.3). *)
Definition vertical_drift (a b : OcTreeKey) : float :=
  PrimFloat.abs (pz (keyToWorld octree a) - pz (keyToWorld octree b))%float.

(** Modelled from the spec: the neighbour keys of a waypoint (section 4.3);
    the face moves come first, so of two equally safe neighbours the nearer
    one is taken. *)
Definition moves_nearest_first : list Offset :=
  moves6 ++ filter (fun d => d ∉ moves6) moves26.

(** Modelled from the spec: the safer position for a waypoint (section
    4.3): among the valid neighbour keys that lie farther from the
    obstacles, preferably one whose vertical drift stays within
    [z_diff_tolerance]; [None] when there is none. *)
Definition getBestNeighbor (z_diff_tolerance : float) (k : OcTreeKey) : option OcTreeKey :=
  let candidates :=
    List.filter (fun k' => isNodeValid octree bounds cfg k'
                           && PrimFloat.ltb (obstacle_distance octree k)
                                            (obstacle_distance octree k'))
                (map (key_add k) moves_nearest_first) in
  let level :=
    List.filter (fun k' => PrimFloat.leb (vertical_drift k k') z_diff_tolerance)
                candidates in
  match level with
  | [] => safest candidates
  | _ => safest level
  end.

(** Modelled from the spec: the connector waypoint between two keys that
    are no longer adjacent (sections 4.3 and 4.4): a valid key adjacent to
    both, the one farthest from the obstacles. *)
Definition findConnection (a b : OcTreeKey) : option OcTreeKey :=
  safest (List.filter (fun c => isNodeValid octree bounds cfg c
                                && adjacent (connectivity cfg) a c
                                && adjacent (connectivity cfg) c b)
                      (map (key_add a) (moves (connectivity cfg)))).

(** Modelled from the spec: the waypoint after the pass and whether it was
    relocated; a waypoint that cannot be moved to a safer key is left in
    place (section 4.3). *)
Definition relocate (safe_dist z_diff_tolerance : float) (pinned : bool) (k : OcTreeKey)
  : OcTreeKey * bool :=
  if PrimFloat.ltb (obstacle_distance octree k) safe_dist && negb pinned then
    match getBestNeighbor z_diff_tolerance k with
    | Some k' => (k', true)
    | None => (k, false)
    end
  else (k, false).

(** Modelled from the spec: the connector between the previous waypoint of
    the output and the current one (section 4.3), when one of the two was relocated and they are no longer
    adjacent (two waypoints moved to one key need none). *)
Definition reconnect (prev : option (OcTreeKey * bool)) (k : OcTreeKey) (moved : bool)
  : list OcTreeKey :=
  match prev with
  | Some (p, p_moved) =>
      if (moved || p_moved) && negb (adjacent (connectivity cfg) p k)
         && negb (bool_decide (p = k))
      then option_list (findConnection p k) else []
  | None => []
  end.

(** Modelled from the spec: one pass of the safety inflation (section 4.3):
    every waypoint closer than [safe_dist] to an obstacle is nudged to a
    safer key, the goal waypoint excepted when it is pinned; after a
    relocation the adjacency to the neighbouring waypoint is re-validated
    and a connector inserted when it is broken. *)
Fixpoint safe_pass (safe_dist z_diff_tolerance : float) (fix_goal_point : bool)
    (prev : option (OcTreeKey * bool)) (key_path : list OcTreeKey) : list OcTreeKey :=
  match key_path with
  | [] => []
  | k :: rest =>
      let pinned := fix_goal_point && match rest with [] => true | _ => false end in
      let '(k', moved) := relocate safe_dist z_diff_tolerance pinned k in
      reconnect prev k' moved
      ++ k' :: safe_pass safe_dist z_diff_tolerance fix_goal_point (Some (k', moved)) rest
  end.

(** Modelled from the spec: passes are repeated until the path is stable or
    the budget is used (section 4.3). *)
Fixpoint safe_passes (n : nat) (safe_dist z_diff_tolerance : float)
    (fix_goal_point : bool) (key_path : list OcTreeKey) : list OcTreeKey :=
  match n with
  | O => key_path
  | S n' =>
      let next := safe_pass safe_dist z_diff_tolerance fix_goal_point None key_path in
      if decide (next = key_path) then key_path
      else safe_passes n' safe_dist z_diff_tolerance fix_goal_point next
  end.

(** Modelled from the spec: [getSafePath] (section 4.3), up to
    [max_iteration] passes or until the path stabilises.  The header
    declares [getSafePath] without a body. *)
Definition getSafePath (key_path : list OcTreeKey) (safe_dist : float)
    (max_iteration : Z) (z_diff_tolerance : float) (fix_goal_point : bool)
  : list OcTreeKey :=
  safe_passes (Z.to_nat max_iteration) safe_dist z_diff_tolerance fix_goal_point key_path.

End SafePath.

End Planner.


(** * A small world for the examples

    A slab of 4 x 4 x 1 voxels.  The voxels [(1, y, 0)] with [y <= 2] are a
    wall; the obstacle distance of a point is its distance to the plane of
    the wall. *)

Module Demo.

Import AstarPriorityQueue Planner.

Definition slab : GridBounds := {| min_key := mkKey 0 0 0; max_key := mkKey 3 3 0 |}.

Definition centre (k : OcTreeKey) : point3d :=
  mkPoint (Z_to_float (k0 k)) (Z_to_float (k1 k)) (Z_to_float (k2 k)).

Definition index_of (x : float) : Z :=
  default 0 (List.find (fun i => PrimFloat.eqb (Z_to_float i) x) [0; 1; 2; 3]).

Definition voxel_of (p : point3d) : OcTreeKey :=
  mkKey (index_of (px p)) (index_of (py p)) (index_of (pz p)).

Definition occupancy_of (k : OcTreeKey) : Occupancy :=
  if negb (within_bounds slab k) then OutOfBounds
  else if (k0 k =? 1) && (k1 k <=? 2) then Occupied
  else Free.

Definition wall_distance (p : point3d) : float := PrimFloat.abs (px p - 1)%float.

Definition octree : OccupancyMapAdapter := {|
  worldToKey := voxel_of;
  keyToWorld := centre;
  occupancy := occupancy_of;
  nearestObstacleDistance := wall_distance;
  resolution := 1%float
|}.

Definition config (c : Connectivity) : Config := {|
  connectivity := c;
  enablePlanningToUnreachableGoal := false;
  planningTimeout := 10%float;
  safeDist := 2%float;
  clearingDist := 3%float;
  breakAtTimeout := false;
  unknownIsTraversable := false;
  proximityPenalty := fun _ => 0%float;
  fallbackCost := h_cost;
  goalSearchRadius := 1%nat;
  goalTolerance := 0%float
|}.

(** A clock on which no time passes. *)
Definition clock (n : nat) : float := 0%float.

(** From [(0, 0, 0)] to [(2, 0, 0)], on the other side of the wall. *)
Definition plan (c : Connectivity) : option SearchOutcome :=
  getNodePath sort_heap_algorithms octree slab (config c) clock 100
              (centre (mkKey 0 0 0)) (centre (mkKey 2 0 0)).

Definition planned_path (c : Connectivity) : list Node :=
  match plan c with
  | Some (Found path) => path
  | _ => []
  end.

(** A path along [x = 3], two voxels from the wall, and one along [x = 2]. *)
Definition far_path : list OcTreeKey := [mkKey 3 0 0; mkKey 3 1 0; mkKey 3 2 0].
Definition near_path : list OcTreeKey := [mkKey 2 0 0; mkKey 2 1 0; mkKey 2 2 0].

End Demo.

(** * A second small world

    The same slab, with one occupied voxel at the origin; the obstacle
    distance of a point is its distance to that voxel, counted along the
    axes.  The search is 6-connected. *)

Module Corner.

Import AstarPriorityQueue Planner.

Definition occupancy_of (k : OcTreeKey) : Occupancy :=
  if negb (within_bounds Demo.slab k) then OutOfBounds
  else if (k0 k =? 0) && (k1 k =? 0) && (k2 k =? 0) then Occupied
  else Free.

Definition origin_distance (p : point3d) : float :=
  (PrimFloat.abs (px p) + PrimFloat.abs (py p) + PrimFloat.abs (pz p))%float.

Definition octree : OccupancyMapAdapter := {|
  worldToKey := Demo.voxel_of;
  keyToWorld := Demo.centre;
  occupancy := occupancy_of;
  nearestObstacleDistance := origin_distance;
  resolution := 1%float
|}.

Definition config : Config := Demo.config Connected6.

(** From [(1, 1, 0)] to its neighbour [(0, 1, 0)], next to the obstacle. *)
Definition plan : option SearchOutcome :=
  getNodePath sort_heap_algorithms octree Demo.slab config Demo.clock 100
              (Demo.centre (mkKey 1 1 0)) (Demo.centre (mkKey 0 1 0)).

Definition planned_path : list Node :=
  match plan with
  | Some (Found path) => path
  | _ => []
  end.

(** The planned path after the safety inflation for the safe distance 3,
    the goal waypoint pinned. *)
Definition inflated_path : list OcTreeKey :=
  getSafePath octree Demo.slab config (getKeyPath planned_path) 3%float 5 1%float true.

End Corner.

(** * A clock that ticks

    The first world again, with a clock that reads [1, 2, 3, ...] seconds at
    its polls and a configuration in which the timeout and the
    [breakAtTimeout] flag are chosen. *)

Module Deadline.

Import AstarPriorityQueue Planner.

Definition ticking (n : nat) : float := Z_to_float (Z.of_nat n + 1).

Definition config (timeout : float) (break : bool) : Config := {|
  connectivity := Connected6;
  enablePlanningToUnreachableGoal := false;
  planningTimeout := timeout;
  safeDist := 2%float;
  clearingDist := 3%float;
  breakAtTimeout := break;
  unknownIsTraversable := false;
  proximityPenalty := fun _ => 0%float;
  fallbackCost := h_cost;
  goalSearchRadius := 1%nat;
  goalTolerance := 0%float
|}.

(** From [(0, 0, 0)] to [(2, 0, 0)], on the other side of the wall. *)
Definition plan (timeout : float) (break : bool) : option SearchOutcome :=
  getNodePath sort_heap_algorithms Demo.octree Demo.slab (config timeout break) ticking 100
              (Demo.centre (mkKey 0 0 0)) (Demo.centre (mkKey 2 0 0)).

End Deadline.
(** * Properties *)

(** ** Facts about the order of [double] *)

Module FloatOrderFacts.

Import FloatOrder.

Ltac sf_compare_cases m1 e1 m2 e2 :=
  fold (Pos.compare m1 m2);
  destruct (Z.compare_spec e1 e2), (Pos.compare_spec m1 m2); simpl;
  split; try discriminate; try reflexivity; try lia.

Lemma SFltb_rank f1 f2 :
  sf_is_nan f1 = false -> sf_is_nan f2 = false ->
  (SFltb f1 f2 = true <-> lex_lt (sf_rank f1) (sf_rank f2)).
Proof.
  unfold SFltb, SFcompare, lex_lt, sf_rank.
  destruct f1 as [s1|s1| |s1 m1 e1], f2 as [s2|s2| |s2 m2 e2];
    try discriminate; intros _ _;
    try destruct s1; try destruct s2; try (split; [discriminate | lia]);
    try (split; [lia | discriminate]); try (split; [intros _; lia | reflexivity]).
  all: sf_compare_cases m1 e1 m2 e2.
Qed.

Lemma SFleb_rank f1 f2 :
  sf_is_nan f1 = false -> sf_is_nan f2 = false ->
  (SFleb f1 f2 = true <-> ~ lex_lt (sf_rank f2) (sf_rank f1)).
Proof.
  unfold SFleb, SFcompare, lex_lt, sf_rank.
  destruct f1 as [s1|s1| |s1 m1 e1], f2 as [s2|s2| |s2 m2 e2];
    try discriminate; intros _ _;
    try destruct s1; try destruct s2; try (split; [discriminate | lia]);
    try (split; [lia | discriminate]); try (split; [intros _; lia | reflexivity]).
  all: sf_compare_cases m1 e1 m2 e2.
Qed.

Lemma is_nan_spec x : is_nan x = sf_is_nan (Prim2SF x).
Proof.
  unfold is_nan. rewrite FloatAxioms.eqb_spec. unfold SFeqb, SFcompare.
  destruct (Prim2SF x) as [s|s| |s m e]; try reflexivity; try (destruct s; reflexivity).
  destruct s; rewrite Z.compare_refl; fold (Pos.compare m m);
    rewrite Pos.compare_refl; reflexivity.
Qed.

Lemma ltb_nan_l x y : is_nan x = true -> PrimFloat.ltb x y = false.
Proof.
  rewrite is_nan_spec, FloatAxioms.ltb_spec.
  destruct (Prim2SF x); try discriminate. reflexivity.
Qed.

Lemma ltb_nan_r x y : is_nan y = true -> PrimFloat.ltb x y = false.
Proof.
  rewrite is_nan_spec, FloatAxioms.ltb_spec. destruct (Prim2SF y); try discriminate.
  intros _. unfold SFltb, SFcompare. destruct (Prim2SF x); reflexivity.
Qed.

Lemma ltb_irrefl x : PrimFloat.ltb x x = false.
Proof.
  destruct (is_nan x) eqn:Hn; [by apply ltb_nan_l|].
  apply not_true_iff_false.
  rewrite FloatAxioms.ltb_spec, SFltb_rank by (rewrite <- is_nan_spec; assumption).
  unfold lex_lt. destruct (sf_rank (Prim2SF x)) as [[a b] c]. lia.
Qed.

Lemma leb_not_ltb x y :
  is_nan x = false -> is_nan y = false ->
  PrimFloat.leb x y = negb (PrimFloat.ltb y x).
Proof.
  intros Hx Hy. rewrite is_nan_spec in Hx, Hy.
  apply eq_true_iff_eq. rewrite negb_true_iff, <- not_true_iff_false.
  rewrite FloatAxioms.leb_spec, FloatAxioms.ltb_spec, SFleb_rank, SFltb_rank by assumption.
  tauto.
Qed.

(** "Not greater" is transitive through a number. *)
Lemma not_ltb_trans x y z :
  is_nan y = false ->
  PrimFloat.ltb y x = false -> PrimFloat.ltb z y = false -> PrimFloat.ltb z x = false.
Proof.
  intros Hy Hyx Hzy.
  destruct (is_nan x) eqn:Hx; [by apply ltb_nan_r|].
  destruct (is_nan z) eqn:Hz; [by apply ltb_nan_l|].
  rewrite is_nan_spec in Hx, Hy, Hz.
  rewrite <- not_true_iff_false in Hyx, Hzy |- *.
  rewrite FloatAxioms.ltb_spec, SFltb_rank in Hyx by assumption.
  rewrite FloatAxioms.ltb_spec, SFltb_rank in Hzy by assumption.
  rewrite FloatAxioms.ltb_spec, SFltb_rank by assumption.
  unfold lex_lt in *.
  destruct (sf_rank (Prim2SF x)) as [[a1 a2] a3], (sf_rank (Prim2SF y)) as [[b1 b2] b3],
    (sf_rank (Prim2SF z)) as [[c1 c2] c3]. lia.
Qed.

Lemma leb_ltb_false x y : PrimFloat.leb x y = true -> PrimFloat.ltb y x = false.
Proof.
  intros Hle. destruct (is_nan x) eqn:Hx; [by apply ltb_nan_r|].
  destruct (is_nan y) eqn:Hy; [by apply ltb_nan_l|].
  rewrite leb_not_ltb in Hle by assumption. by apply negb_true_iff.
Qed.

End FloatOrderFacts.

(** ** More facts about the order of [double] *)

Module FloatOrderMore.

Import FloatOrder FloatOrderFacts.

Lemma SFeqb_rank f1 f2 :
  sf_is_nan f1 = false -> sf_is_nan f2 = false ->
  (SFeqb f1 f2 = true <-> sf_rank f1 = sf_rank f2).
Proof.
  unfold SFeqb, SFcompare, sf_rank.
  destruct f1 as [s1|s1| |s1 m1 e1], f2 as [s2|s2| |s2 m2 e2];
    try discriminate; intros _ _;
    try destruct s1; try destruct s2; try (split; [discriminate | congruence]);
    try (split; [congruence | discriminate]); try (split; reflexivity).
  all: fold (Pos.compare m1 m2);
    destruct (Z.compare_spec e1 e2), (Pos.compare_spec m1 m2); simpl;
    split; try discriminate; try reflexivity; intros Heq;
    try (exfalso; injection Heq; lia); subst; reflexivity.
Qed.

Lemma leb_nan_l x y : is_nan x = true -> PrimFloat.leb x y = false.
Proof.
  rewrite is_nan_spec, FloatAxioms.leb_spec.
  destruct (Prim2SF x); try discriminate. reflexivity.
Qed.

Lemma leb_nan_r x y : is_nan y = true -> PrimFloat.leb x y = false.
Proof.
  rewrite is_nan_spec, FloatAxioms.leb_spec. destruct (Prim2SF y); try discriminate.
  intros _. unfold SFleb, SFcompare. destruct (Prim2SF x); reflexivity.
Qed.

(** A comparison that holds has numbers on both sides. *)
Lemma ltb_numbers x y : PrimFloat.ltb x y = true -> is_nan x = false /\ is_nan y = false.
Proof.
  intros Hlt. split.
  - destruct (is_nan x) eqn:Hx; [|done]. by rewrite (ltb_nan_l x y Hx) in Hlt.
  - destruct (is_nan y) eqn:Hy; [|done]. by rewrite (ltb_nan_r x y Hy) in Hlt.
Qed.

Lemma leb_numbers x y : PrimFloat.leb x y = true -> is_nan x = false /\ is_nan y = false.
Proof.
  intros Hle. split.
  - destruct (is_nan x) eqn:Hx; [|done]. by rewrite (leb_nan_l x y Hx) in Hle.
  - destruct (is_nan y) eqn:Hy; [|done]. by rewrite (leb_nan_r x y Hy) in Hle.
Qed.

Lemma ltb_lex x y :
  is_nan x = false -> is_nan y = false ->
  (PrimFloat.ltb x y = true <-> lex_lt (sf_rank (Prim2SF x)) (sf_rank (Prim2SF y))).
Proof.
  intros Hx Hy. rewrite is_nan_spec in Hx, Hy.
  by rewrite FloatAxioms.ltb_spec, SFltb_rank.
Qed.

Lemma ltb_asym x y : PrimFloat.ltb x y = true -> PrimFloat.ltb y x = false.
Proof.
  intros Hlt. destruct (ltb_numbers x y Hlt) as [Hx Hy].
  apply not_true_iff_false. rewrite ltb_lex in Hlt |- * by done.
  unfold lex_lt in *.
  destruct (sf_rank (Prim2SF x)) as [[a1 a2] a3], (sf_rank (Prim2SF y)) as [[b1 b2] b3].
  lia.
Qed.

Lemma ltb_trans x y z :
  PrimFloat.ltb x y = true -> PrimFloat.ltb y z = true -> PrimFloat.ltb x z = true.
Proof.
  intros Hxy Hyz. destruct (ltb_numbers x y Hxy) as [Hx Hy].
  destruct (ltb_numbers y z Hyz) as [_ Hz].
  rewrite ltb_lex in Hxy, Hyz |- * by done. unfold lex_lt in *.
  destruct (sf_rank (Prim2SF x)) as [[a1 a2] a3], (sf_rank (Prim2SF y)) as [[b1 b2] b3],
    (sf_rank (Prim2SF z)) as [[c1 c2] c3]. lia.
Qed.

(** A candidate not above another one is below whatever the other is below. *)
Lemma leb_ltb_trans x y z :
  PrimFloat.leb x y = true -> PrimFloat.ltb y z = true -> PrimFloat.ltb x z = true.
Proof.
  intros Hxy Hyz. destruct (leb_numbers x y Hxy) as [Hx Hy].
  destruct (ltb_numbers y z Hyz) as [_ Hz].
  rewrite leb_not_ltb, negb_true_iff, <- not_true_iff_false in Hxy by done.
  rewrite ltb_lex in Hxy, Hyz |- * by done. unfold lex_lt in *.
  destruct (sf_rank (Prim2SF x)) as [[a1 a2] a3], (sf_rank (Prim2SF y)) as [[b1 b2] b3],
    (sf_rank (Prim2SF z)) as [[c1 c2] c3]. lia.
Qed.

(** Two numbers are ordered one way, or the other, or compare equal. *)
Lemma ltb_trichotomy x y :
  is_nan x = false -> is_nan y = false ->
  PrimFloat.ltb x y = true \/ PrimFloat.eqb x y = true \/ PrimFloat.ltb y x = true.
Proof.
  intros Hx Hy. rewrite !ltb_lex by done.
  rewrite is_nan_spec in Hx, Hy. rewrite FloatAxioms.eqb_spec, SFeqb_rank by done.
  unfold lex_lt.
  destruct (sf_rank (Prim2SF x)) as [[a1 a2] a3], (sf_rank (Prim2SF y)) as [[b1 b2] b3].
  destruct (Z.lt_total a1 b1) as [?|[->|?]], (Z.lt_total a2 b2) as [?|[->|?]],
    (Z.lt_total a3 b3) as [?|[->|?]];
    first [left; lia | right; right; lia | right; left; reflexivity].
Qed.

End FloatOrderMore.

(** ** Basic facts about the key comparisons *)

Lemma keys_equal_spec (a b : OcTreeKey) :
  keys_equal a b = true <-> k0 a = k0 b /\ k1 a = k1 b /\ k2 a = k2 b.
Proof.
  unfold keys_equal. rewrite !andb_true_iff, !Z.eqb_eq. tauto.
Qed.

Lemma keys_equal_eq (a b : OcTreeKey) : keys_equal a b = true <-> a = b.
Proof.
  rewrite keys_equal_spec. split.
  - destruct a, b; simpl. intros (-> & -> & ->). reflexivity.
  - by intros ->.
Qed.

Lemma keys_differ_negb (a b : OcTreeKey) : keys_differ a b = negb (keys_equal a b).
Proof.
  unfold keys_differ, keys_equal.
  by destruct (k0 a =? k0 b), (k1 a =? k1 b), (k2 a =? k2 b).
Qed.

Lemma keys_differ_spec (a b : OcTreeKey) : keys_differ a b = true <-> a <> b.
Proof.
  rewrite keys_differ_negb, negb_true_iff, <- not_true_iff_false, keys_equal_eq.
  tauto.
Qed.

Lemma key_sum_lt_differ (a b : OcTreeKey) :
  key_sum a < key_sum b -> keys_differ a b = true.
Proof.
  intros Hlt. apply keys_differ_spec. intros ->. by apply Z.lt_irrefl in Hlt.
Qed.

Lemma keys_differ_sym (a b : OcTreeKey) : keys_differ a b = keys_differ b a.
Proof.
  unfold keys_differ. by rewrite (Z.eqb_sym (k0 a)), (Z.eqb_sym (k1 a)), (Z.eqb_sym (k2 a)).
Qed.

Lemma node_lt_key_sum (a b : Node) :
  node_lt a b = (key_sum (key a) <? key_sum (key b)).
Proof.
  unfold node_lt. destruct (Z.ltb_spec (key_sum (key a)) (key_sum (key b))) as [Hlt|Hge].
  - by rewrite key_sum_lt_differ.
  - reflexivity.
Qed.

(** ** Node identity *)

(** C9. Node identity is the key alone: [a == b] holds exactly when the
    three key components are pairwise equal, for the free and for the member
    operator; replacing [a] and [b] by nodes with the same keys, whatever
    their costs and depth, does not change the answer; the hash is the same
    for nodes with the same key, so [a == b] implies equal hashes.  This
    holds for every [std::hash<int>]. *)
Theorem node_identity_is_key_only (hash_int : Z -> Z) (a b : Node) :
  (node_eq a b = true <->
     k0 (key a) = k0 (key b) /\ k1 (key a) = k1 (key b) /\ k2 (key a) = k2 (key b))
  /\ NodeMember.op_eq a b = node_eq a b
  /\ (forall a' b', key a' = key a -> key b' = key b -> node_eq a' b' = node_eq a b)
  /\ (forall a', key a' = key a -> NodeHasher hash_int a' = NodeHasher hash_int a)
  /\ (node_eq a b = true -> NodeHasher hash_int a = NodeHasher hash_int b).
Proof.
  split; [apply keys_equal_spec|].
  split; [reflexivity|].
  split; [intros a' b' Ha Hb; unfold node_eq; by rewrite Ha, Hb|].
  split; [intros a' Ha; unfold NodeHasher; by rewrite Ha|].
  intros Heq. apply keys_equal_eq in Heq. unfold NodeHasher. by rewrite Heq.
Qed.

(** Two nodes with one key and different costs are equal and hash alike. *)
Example node_identity_example :
  let a := with_g_cost (node_at (mkKey 3 4 5)) 7%float in
  let b := with_f_cost (node_at (mkKey 3 4 5)) 2%float in
  node_eq a b = true
  /\ NodeHasher hash_int_identity a = NodeHasher hash_int_identity b
  /\ NodeHasher hash_int_identity a = 15.
Proof. by vm_compute. Qed.

(** ** The order on nodes *)

(** C10. [operator<] on nodes, free and member, is the strict order of the
    key-component sums: a node is less exactly when its sum is smaller and
    the keys are not identical, which is exactly when its sum is smaller;
    no cost field takes part.  It is irreflexive, and there are nodes with
    distinct keys and equal sums that are neither less, nor greater, nor
    equal: the order is not total on keys. *)
Theorem node_lt_is_key_sum_order :
  (forall a b, node_lt a b = true <->
     key_sum (key a) < key_sum (key b) /\ key a <> key b)
  /\ (forall a b, node_lt a b = (key_sum (key a) <? key_sum (key b)))
  /\ (forall a b a' b', key a' = key a -> key b' = key b -> node_lt a' b' = node_lt a b)
  /\ (forall a, node_lt a a = false)
  /\ (forall a b, NodeMember.op_lt a b = node_lt a b /\ NodeMember.op_gt a b = node_lt b a)
  /\ (exists a b, key a <> key b /\ key_sum (key a) = key_sum (key b)
        /\ node_lt a b = false /\ node_lt b a = false /\ node_eq a b = false).
Proof.
  split.
  { intros a b. unfold node_lt. rewrite andb_true_iff, Z.ltb_lt, keys_differ_spec. tauto. }
  split; [apply node_lt_key_sum|].
  split; [intros a b a' b' Ha Hb; unfold node_lt; by rewrite Ha, Hb|].
  split; [intros a; rewrite node_lt_key_sum; apply Z.ltb_irrefl|].
  split.
  { intros a b. split; [reflexivity|].
    unfold NodeMember.op_gt, node_lt. by rewrite Z.gtb_ltb, keys_differ_sym. }
  exists (node_at (mkKey 1 0 0)), (node_at (mkKey 0 1 0)).
  split; [discriminate|]. by vm_compute.
Qed.

(** ** More about the node operators *)

Module NodeOperatorFacts.

Import FloatOrder FloatOrderFacts FloatOrderMore.

(** [operator==], free and member, and the predicate [node_equal] that
    [conditional_remove] searches with are one relation, and it is an
    equivalence: reflexive, symmetric and transitive. *)
Theorem node_eq_equivalence :
  (forall a, node_eq a a = true)
  /\ (forall a b, node_eq a b = node_eq b a)
  /\ (forall a b c, node_eq a b = true -> node_eq b c = true -> node_eq a c = true)
  /\ (forall a b, NodeMember.op_eq a b = node_eq a b
                  /\ AstarPriorityQueue.node_equal a b = node_eq a b).
Proof.
  split; [intros a; by apply keys_equal_eq|].
  assert (forall a b, node_eq a b = node_eq b a) as Hsym.
  { intros a b. unfold node_eq, keys_equal.
    by rewrite (Z.eqb_sym (k0 (key a))), (Z.eqb_sym (k1 (key a))), (Z.eqb_sym (k2 (key a))). }
  split; [exact Hsym|].
  split.
  { intros a b c Hab Hbc. apply keys_equal_eq in Hab, Hbc. apply keys_equal_eq. congruence. }
  intros a b. split; [reflexivity|]. by rewrite Hsym.
Qed.

(** [operator<] on nodes is a strict weak ordering: asymmetric, transitive,
    and with a transitive incomparability; nodes that are [==] are
    incomparable and can replace one another on either side of [<]. *)
Theorem node_lt_strict_weak_order :
  (forall a b, node_lt a b = true -> node_lt b a = false)
  /\ (forall a b c, node_lt a b = true -> node_lt b c = true -> node_lt a c = true)
  /\ (forall a b c,
        node_lt a b = false -> node_lt b a = false ->
        node_lt b c = false -> node_lt c b = false ->
        node_lt a c = false /\ node_lt c a = false)
  /\ (forall a b, node_eq a b = true -> node_lt a b = false /\ node_lt b a = false)
  /\ (forall a b c, node_eq a b = true ->
        node_lt a c = node_lt b c /\ node_lt c a = node_lt c b).
Proof.
  split; [intros a b; rewrite !node_lt_key_sum, Z.ltb_lt, Z.ltb_ge; lia|].
  split; [intros a b c; rewrite !node_lt_key_sum, !Z.ltb_lt; lia|].
  split; [intros a b c; rewrite !node_lt_key_sum, !Z.ltb_ge; lia|].
  split.
  { intros a b Heq. apply keys_equal_eq in Heq.
    rewrite !node_lt_key_sum, Heq, Z.ltb_irrefl. done. }
  intros a b c Heq. apply keys_equal_eq in Heq. by rewrite !node_lt_key_sum, Heq.
Qed.

(** [NodeCompare] is a strict order on all nodes: irreflexive, asymmetric
    and transitive.  On nodes whose [g_cost] is a number it is the strict
    weak ordering that [std::priority_queue] asks for: "not after" is
    transitive through a number, and two numbers are ordered one way or the
    other or compare equal.  A [g_cost] that is not a number is incomparable
    with everything, which breaks the transitivity of incomparability. *)
Theorem NodeCompare_strict_weak_order :
  (forall a, NodeCompare a a = false)
  /\ (forall a b, NodeCompare a b = true -> NodeCompare b a = false)
  /\ (forall a b c, NodeCompare a b = true -> NodeCompare b c = true ->
        NodeCompare a c = true)
  /\ (forall a b c, is_nan (g_cost b) = false ->
        NodeCompare a b = false -> NodeCompare b c = false -> NodeCompare a c = false)
  /\ (forall a b, is_nan (g_cost a) = false -> is_nan (g_cost b) = false ->
        NodeCompare a b = true \/ NodeCompare b a = true
        \/ PrimFloat.eqb (g_cost a) (g_cost b) = true)
  /\ (forall a b, is_nan (g_cost a) = true ->
        NodeCompare a b = false /\ NodeCompare b a = false)
  /\ (exists a b c,
        NodeCompare a b = false /\ NodeCompare b a = false
        /\ NodeCompare b c = false /\ NodeCompare c b = false
        /\ NodeCompare a c = true).
Proof.
  unfold NodeCompare.
  split; [intros a; apply ltb_irrefl|].
  split; [intros a b; apply ltb_asym|].
  split; [intros a b c Hab Hbc; by apply (ltb_trans _ (g_cost b))|].
  split.
  { intros a b c Hb Hab Hbc. by apply (not_ltb_trans _ (g_cost b)). }
  split.
  { intros a b Ha Hb. destruct (ltb_trichotomy (g_cost a) (g_cost b) Ha Hb) as [?|[?|?]];
      auto. }
  split.
  { intros a b Ha. split; [by apply ltb_nan_r|by apply ltb_nan_l]. }
  exists (with_g_cost (node_at (mkKey 0 0 0)) 2%float),
    (with_g_cost (node_at (mkKey 0 0 0)) PrimFloat.nan),
    (with_g_cost (node_at (mkKey 0 0 0)) 1%float).
  by vm_compute.
Qed.

Lemma shiftr_one_div (x : Z) : Z.shiftr x 1 = x / 2.
Proof. by rewrite Z.shiftr_div_pow2. Qed.

(** [NodeHasher] shifts the combination of the first two component hashes
    right by one, so the lowest bit of the hash of [k[0]] never reaches the
    result: two nodes whose first component hashes agree up to that bit, and
    whose other two component hashes agree, hash alike.  With the identity
    hash the keys [(2x, y, z)] and [(2x+1, y, z)] always collide, although
    the nodes are not equal. *)
Theorem NodeHasher_drops_low_bit :
  (forall (hash_int : Z -> Z) (a b : Node),
     hash_int (k0 (key a)) / 2 = hash_int (k0 (key b)) / 2 ->
     hash_int (k1 (key a)) = hash_int (k1 (key b)) ->
     hash_int (k2 (key a)) = hash_int (k2 (key b)) ->
     NodeHasher hash_int a = NodeHasher hash_int b)
  /\ (forall x y z (a b : Node),
        0 <= x < 2 ^ 15 ->
        key a = mkKey (2 * x) y z -> key b = mkKey (2 * x + 1) y z ->
        NodeHasher hash_int_identity a = NodeHasher hash_int_identity b
        /\ node_eq a b = false).
Proof.
  assert (forall (hash_int : Z -> Z) (a b : Node),
     hash_int (k0 (key a)) / 2 = hash_int (k0 (key b)) / 2 ->
     hash_int (k1 (key a)) = hash_int (k1 (key b)) ->
     hash_int (k2 (key a)) = hash_int (k2 (key b)) ->
     NodeHasher hash_int a = NodeHasher hash_int b) as Hdrop.
  { intros hash_int a b H0 H1 H2. unfold NodeHasher.
    rewrite !Z.shiftr_lxor, !shiftr_one_div. by rewrite H0, H1, H2. }
  split; [exact Hdrop|].
  intros x y z a b Hx Ha Hb. split.
  - apply Hdrop; rewrite Ha, Hb; simpl; [|done..].
    unfold hash_int_identity, size_t_bits.
    rewrite !Z.mod_small by lia.
    rewrite (Z.mul_comm 2 x), Z.div_mul by done.
    rewrite (Z.add_comm _ 1), Z.div_add by done. reflexivity.
  - apply not_true_iff_false. intros Heq. apply keys_equal_eq in Heq.
    rewrite Ha, Hb in Heq. injection Heq. lia.
Qed.

Lemma lxor_below (n a b : Z) :
  0 <= n -> 0 <= a < 2 ^ n -> 0 <= b < 2 ^ n -> 0 <= Z.lxor a b < 2 ^ n.
Proof.
  intros Hn Ha Hb. split; [apply Z.lxor_nonneg; lia|].
  destruct (Z.eq_dec (Z.lxor a b) 0) as [->|Hne]; [apply Z.pow_pos_nonneg; lia|].
  destruct (Z.eq_dec n 0) as [->|Hpos].
  { assert (a = 0) as -> by lia. assert (b = 0) as -> by lia. done. }
  apply Z.log2_lt_pow2; [pose proof (Z.lxor_nonneg a b); lia|].
  eapply Z.le_lt_trans; [apply Z.log2_lxor; lia|].
  apply Z.max_lub_lt.
  - destruct (Z.eq_dec a 0) as [->|]; [simpl; lia|apply Z.log2_lt_pow2; lia].
  - destruct (Z.eq_dec b 0) as [->|]; [simpl; lia|apply Z.log2_lt_pow2; lia].
Qed.

(** For keys of 16 bits and the identity hash, [NodeHasher] is
    [(k[0] / 2) ^ k[1] ^ (2 * k[2])]: it never uses more than 17 bits. *)
Theorem NodeHasher_identity_closed_form (n : Node) :
  0 <= k0 (key n) < 2 ^ 16 -> 0 <= k1 (key n) < 2 ^ 16 -> 0 <= k2 (key n) < 2 ^ 16 ->
  NodeHasher hash_int_identity n
  = Z.lxor (Z.lxor (k0 (key n) / 2) (k1 (key n))) (2 * k2 (key n))
  /\ 0 <= NodeHasher hash_int_identity n < 2 ^ 17.
Proof.
  intros H0 H1 H2.
  assert (forall x, 0 <= x < 2 ^ 16 -> hash_int_identity x = x) as Hid.
  { intros x Hx. unfold hash_int_identity, size_t_bits. apply Z.mod_small. lia. }
  assert (forall x, 0 <= x < 2 ^ 16 -> size_t_shl x 1 = 2 * x) as Hshl.
  { intros x Hx. unfold size_t_shl, size_t_bits.
    rewrite Z.land_ones, Z.shiftl_mul_pow2 by lia. rewrite Z.mod_small; lia. }
  assert (NodeHasher hash_int_identity n
          = Z.lxor (Z.lxor (k0 (key n) / 2) (k1 (key n))) (2 * k2 (key n))) as Hform.
  { unfold NodeHasher. rewrite !Hid, !Hshl by done.
    rewrite Z.shiftr_lxor, !shiftr_one_div.
    by rewrite (Z.mul_comm 2 (k1 (key n))), Z.div_mul. }
  split; [exact Hform|]. rewrite Hform.
  assert (0 <= k0 (key n) / 2 < 2 ^ 17) by (split; [apply Z.div_pos|apply Z.div_lt_upper_bound]; lia).
  apply lxor_below; [lia| |lia]. apply lxor_below; lia.
Qed.

(** The statement at the key [(6, 3, 5)]: the hash is [3 ^ 3 ^ 10]. *)
Lemma NodeHasher_identity_closed_form_witness :
  NodeHasher hash_int_identity (node_at (mkKey 6 3 5)) = 10.
Proof.
  destruct (NodeHasher_identity_closed_form (node_at (mkKey 6 3 5))) as [Hform _];
    simpl; try lia.
  exact Hform.
Defined.

End NodeOperatorFacts.

(** ** The open list *)

Module AstarPriorityQueueFacts.

Import AstarPriorityQueue FloatOrder FloatOrderFacts.

Lemma node_equal_spec (value n : Node) : node_equal value n = true <-> key n = key value.
Proof. apply keys_equal_eq. Qed.

Lemma node_equal_false (value n : Node) : node_equal value n = false <-> key n <> key value.
Proof. rewrite <- node_equal_spec. symmetry. apply not_true_iff_false. Qed.

Lemma find_if_Some (p : Node -> bool) (c : list Node) (i : nat) (n : Node) :
  find_if p c = Some (i, n) ->
  exists l1 l2, c = l1 ++ n :: l2 /\ length l1 = i /\ p n = true
                /\ Forall (fun m => p m = false) l1.
Proof.
  revert i. induction c as [|x c IH]; intros i; simpl; [discriminate|].
  destruct (p x) eqn:Hp.
  - intros [= <- <-]. by exists [], c.
  - destruct (find_if p c) as [[j y]|]; [|discriminate].
    intros [= <- <-]. destruct (IH j eq_refl) as (l1 & l2 & -> & <- & Hy & Hl1).
    exists (x :: l1), l2. repeat split; auto.
Qed.

Lemma find_if_None (p : Node -> bool) (c : list Node) :
  find_if p c = None <-> Forall (fun m => p m = false) c.
Proof.
  induction c as [|x c IH]; simpl; [by split; [constructor|]|].
  destruct (p x) eqn:Hp.
  - split; [discriminate|]. intros Hall. apply Forall_cons in Hall as [Hx _]. congruence.
  - destruct (find_if p c) as [[j y]|].
    + split; [discriminate|]. intros Hall. apply Forall_cons in Hall as [_ Hc].
      by apply IH in Hc.
    + split; [|done]. intros _. constructor; [done|]. by apply IH.
Qed.

Lemma find_if_first (p : Node -> bool) (l1 : list Node) (n : Node) (l2 : list Node) :
  p n = true -> Forall (fun m => p m = false) l1 ->
  find_if p (l1 ++ n :: l2) = Some (length l1, n).
Proof.
  intros Hn. induction 1 as [|x l1 Hx _ IH]; simpl; [by rewrite Hn|].
  by rewrite Hx, IH.
Qed.

(** What [find_if (node_equal value)] returns is the first entry for the
    key of [value]. *)
Lemma find_if_first_entry (c : list Node) (value : Node) (i : nat) (n : Node) :
  find_if (node_equal value) c = Some (i, n) <->
  exists l1 l2, first_entry (key value) c l1 n l2 /\ length l1 = i.
Proof.
  split.
  - intros Hf. apply find_if_Some in Hf as (l1 & l2 & -> & <- & Hn & Hl1).
    exists l1, l2. repeat split; [by apply node_equal_spec|].
    eapply Forall_impl; [exact Hl1|]. intros m. apply node_equal_false.
  - intros (l1 & l2 & (-> & Hn & Hl1) & <-). apply find_if_first.
    + by apply node_equal_spec.
    + eapply Forall_impl; [exact Hl1|]. intros m. apply node_equal_false.
Qed.

Lemma find_if_absent (c : list Node) (value : Node) :
  find_if (node_equal value) c = None <-> Forall (fun m => key m <> key value) c.
Proof.
  rewrite find_if_None. split; intros Hall; (eapply Forall_impl; [exact Hall|]);
    intros m; apply node_equal_false.
Qed.

(** The decomposition of a container at its first entry is unique. *)
Lemma first_entry_unique (K : OcTreeKey) (c l1 : list Node) (n : Node) (l2 l1' : list Node)
    (n' : Node) (l2' : list Node) :
  first_entry K c l1 n l2 -> first_entry K c l1' n' l2' ->
  l1 = l1' /\ n = n' /\ l2 = l2'.
Proof.
  intros (Hc & Hn & Hl1). revert c l1' Hc.
  induction Hl1 as [|x l1 Hx _ IH]; intros c l1' -> (Hc & Hn' & Hl1').
  - destruct l1' as [|y l1']; simplify_eq/=; [done|].
    apply Forall_cons in Hl1' as [Hy _]. done.
  - destruct l1' as [|y l1']; simplify_eq/=.
    apply Forall_cons in Hl1' as [_ Hl1'].
    destruct (IH _ l1' eq_refl) as (-> & -> & ->); done.
Qed.

Lemma first_entry_not_absent (K : OcTreeKey) (c l1 : list Node) (n : Node) (l2 : list Node) :
  first_entry K c l1 n l2 -> ~ Forall (fun m => key m <> K) c.
Proof.
  intros (-> & Hn & _) Hall. apply Forall_app in Hall as [_ Hall].
  apply Forall_cons in Hall as [Hn' _]. done.
Qed.

(** The sorting instance meets the contract of the heap algorithms. *)
Lemma sort_heap_contract : HeapContract sort_heap_algorithms.
Proof.
  split; simpl.
  - intros c. apply merge_sort_Permutation.
  - intros c. apply merge_sort_Permutation.
  - intros x c. exists (merge_sort cost_le c). split; [done|].
    apply merge_sort_Permutation.
Qed.

Section QueueFacts.

Variable H : HeapAlgorithms.
Hypothesis contract : HeapContract H.

Lemma push_perm (c : list Node) (x : Node) : push H c x ≡ₚ x :: c.
Proof.
  unfold push. rewrite (push_heap_perm H contract). by rewrite Permutation_app_comm.
Qed.

Lemma pop_perm (t : Node) (c : list Node) : pop H (t :: c) ≡ₚ c.
Proof.
  unfold pop. destruct (pop_heap_back H contract t c) as (c' & -> & Hc').
  by rewrite removelast_last.
Qed.

Lemma conditional_remove_present (c : list Node) (value : Node) (cost : float)
    (l1 : list Node) (n : Node) (l2 : list Node) :
  first_entry (key value) c l1 n l2 ->
  conditional_remove H c value cost =
    if PrimFloat.ltb cost (f_cost n) then (make_heap H (l1 ++ l2), 1) else (c, -1).
Proof.
  intros Hfirst. unfold conditional_remove.
  assert (find_if (node_equal value) c = Some (length l1, n)) as ->.
  { apply find_if_first_entry. by exists l1, l2. }
  destruct Hfirst as (-> & _ & _). unfold erase. by rewrite delete_middle.
Qed.

Lemma conditional_remove_absent (c : list Node) (value : Node) (cost : float) :
  Forall (fun m => key m <> key value) c ->
  conditional_remove H c value cost = (c, 0).
Proof.
  intros Hall. unfold conditional_remove.
  by apply find_if_absent in Hall as ->.
Qed.

(** Every container is of one of the two kinds. *)
Lemma first_entry_or_absent (K : OcTreeKey) (c : list Node) :
  (exists l1 n l2, first_entry K c l1 n l2) \/ Forall (fun m => key m <> K) c.
Proof.
  destruct (find_if (node_equal (node_at K)) c) as [[i n]|] eqn:Hf.
  - left. apply find_if_first_entry in Hf as (l1 & l2 & Hfirst & _). by exists l1, n, l2.
  - right. by apply find_if_absent in Hf.
Qed.


(** After a push of a node whose key the container does not hold, that node
    is the first entry for its key. *)
Lemma first_entry_push (c : list Node) (n : Node) :
  Forall (fun m => key m <> key n) c ->
  exists l1 l2, first_entry (key n) (push H c n) l1 n l2 /\ l1 ++ l2 ≡ₚ c.
Proof.
  intros Hall. pose proof (push_perm c n) as Hperm.
  assert (n ∈ push H c n) as Hin by (rewrite Hperm; left).
  apply list_elem_of_split in Hin as (l1 & l2 & Heq).
  rewrite Heq in Hperm. symmetry in Hperm. apply Permutation_cons_app_inv in Hperm.
  exists l1, l2. split; [|by symmetry].
  split; [done|]. split; [done|].
  rewrite Hperm in Hall. by apply Forall_app in Hall as [Hl1 _].
Qed.

Lemma find_if_map_key (f : Node -> Node) (value : Node) (c : list Node) :
  (forall n, key (f n) = key n) ->
  find_if (node_equal value) (map f c)
  = match find_if (node_equal value) c with
    | Some (i, n) => Some (i, f n)
    | None => None
    end.
Proof.
  intros Hkey. induction c as [|x c IH]; simpl; [done|].
  unfold node_equal at 1 3. rewrite Hkey. fold (node_equal value x).
  destruct (node_equal value x); [done|]. rewrite IH.
  by destruct (find_if (node_equal value) c) as [[i n]|].
Qed.

End QueueFacts.

(** C1. [conditional_remove(value, cost)] on any container [c].  The stored
    entry for the key is the first one [std::find_if] meets, and its stored
    cost is its [f_cost].  The code is 1 exactly when that entry exists and
    its stored cost is strictly greater than the candidate, and then the
    container holds what it held without that entry; the code is -1, with
    the container untouched, when the entry exists with a stored cost less
    than or equal to the candidate; the code is 0, container untouched,
    exactly when no node has the key.  When the key has a single entry in
    [c], "the entry" is that one.  Scenario: after the push of a node with
    a fresh key and cost 10, the candidate 5 removes it, the candidate 20
    keeps it, and before the push the key is reported absent. *)
Theorem conditional_remove_codes (H : HeapAlgorithms) (contract : HeapContract H)
    (c : list Node) (value : Node) (cost : float) :
  let after := (conditional_remove H c value cost).1 in
  let code := (conditional_remove H c value cost).2 in
  (code = 1 <->
     exists l1 n l2, first_entry (key value) c l1 n l2
                     /\ PrimFloat.ltb cost (f_cost n) = true)
  /\ (forall l1 n l2, first_entry (key value) c l1 n l2 ->
        PrimFloat.ltb cost (f_cost n) = true -> after ≡ₚ l1 ++ l2)
  /\ (forall l1 n l2, first_entry (key value) c l1 n l2 ->
        PrimFloat.leb (f_cost n) cost = true -> code = -1 /\ after = c)
  /\ (code = 0 <-> Forall (fun m => key m <> key value) c)
  /\ (code = 1 \/ (code = -1 /\ after = c) \/ (code = 0 /\ after = c))
  /\ (forall n, n ∈ c -> key n = key value ->
        (forall m, m ∈ c -> key m = key value -> m = n) ->
        (code = 1 <-> PrimFloat.ltb cost (f_cost n) = true)
        /\ (PrimFloat.leb (f_cost n) cost = true -> code = -1))
  /\ (forall n, key n = key value -> f_cost n = 10%float ->
        Forall (fun m => key m <> key value) c ->
        (conditional_remove H (push H c n) value 5%float).2 = 1
        /\ (conditional_remove H (push H c n) value 5%float).1 ≡ₚ c
        /\ conditional_remove H (push H c n) value 20%float = (push H c n, -1)
        /\ code = 0).
Proof.
  intros after code.
  assert (forall l1 n l2, first_entry (key value) c l1 n l2 ->
            (code = 1 <-> PrimFloat.ltb cost (f_cost n) = true)
            /\ (PrimFloat.ltb cost (f_cost n) = true -> after ≡ₚ l1 ++ l2)
            /\ (PrimFloat.ltb cost (f_cost n) = false -> code = -1 /\ after = c))
    as Hpresent.
  { intros l1 n l2 Hfirst. subst after code.
    rewrite (conditional_remove_present H c value cost l1 n l2 Hfirst).
    destruct (PrimFloat.ltb cost (f_cost n)); simpl.
    - split; [done|]. split; [|done]. intros _. apply (make_heap_perm H contract).
    - split; [done|]. split; done. }
  assert (Forall (fun m => key m <> key value) c -> code = 0 /\ after = c) as Habsent.
  { intros Hall. subst after code. by rewrite (conditional_remove_absent H c value cost Hall). }
  split.
  { split.
    - intros Hcode. destruct (first_entry_or_absent (key value) c) as [(l1 & n & l2 & Hf)|Hall].
      + exists l1, n, l2. split; [done|]. by apply (Hpresent l1 n l2 Hf).
      + apply Habsent in Hall as [Hzero _]. congruence.
    - intros (l1 & n & l2 & Hf & Hgt). by apply (Hpresent l1 n l2 Hf). }
  split; [intros l1 n l2 Hf Hgt; by apply (Hpresent l1 n l2 Hf)|].
  split.
  { intros l1 n l2 Hf Hle. apply (Hpresent l1 n l2 Hf). by apply leb_ltb_false. }
  split.
  { split; [|by intros Hall; apply Habsent].
    intros Hcode. destruct (first_entry_or_absent (key value) c) as [(l1 & n & l2 & Hf)|Hall];
      [|done].
    destruct (Hpresent l1 n l2 Hf) as (Hone & _ & Hkept).
    destruct (PrimFloat.ltb cost (f_cost n)).
    - assert (code = 1) by by apply Hone. congruence.
    - destruct Hkept as [Hminus _]; [done|]. congruence. }
  split.
  { destruct (first_entry_or_absent (key value) c) as [(l1 & n & l2 & Hf)|Hall].
    - destruct (Hpresent l1 n l2 Hf) as (Hone & _ & Hkept).
      destruct (PrimFloat.ltb cost (f_cost n)); [left; by apply Hone|right; left; by apply Hkept].
    - right; right. by apply Habsent. }
  split.
  { intros n Hin Hkey Hunique.
    destruct (first_entry_or_absent (key value) c) as [(l1 & n' & l2 & Hf)|Hall].
    - assert (n' = n) as ->.
      { destruct Hf as (Hc & Hn' & _). apply Hunique; [|done].
        rewrite Hc. apply elem_of_app. right. left. }
      destruct (Hpresent l1 n l2 Hf) as (Hone & _ & Hkept).
      split; [done|]. intros Hle. apply Hkept. by apply leb_ltb_false.
    - rewrite Forall_forall in Hall. by destruct (Hall n Hin). }
  intros n Hkey Hcost Hall.
  assert (Forall (fun m => key m <> key n) c) as Hall' by by rewrite Hkey.
  destruct (first_entry_push H contract c n Hall') as (l1 & l2 & Hf & Hperm).
  rewrite Hkey in Hf.
  rewrite !(conditional_remove_present H (push H c n) value _ l1 n l2 Hf), Hcost.
  change (PrimFloat.ltb 5 10) with true. change (PrimFloat.ltb 20 10) with false. simpl.
  split; [done|]. split; [by rewrite (make_heap_perm H contract)|]. split; [done|].
  by apply Habsent.
Qed.

(** The statement of C1 at a container of three nodes, for the reference
    heap algorithms: the entry for the key [(1, 0, 0)] has stored cost 10,
    and the candidate 5 removes it. *)
Lemma conditional_remove_codes_witness :
  HeapContract sort_heap_algorithms
  /\ (conditional_remove sort_heap_algorithms
        [node_at (mkKey 0 0 0); with_f_cost (node_at (mkKey 1 0 0)) 10%float;
         node_at (mkKey 2 0 0)]
        (node_at (mkKey 1 0 0)) 5%float).2 = 1.
Proof.
  split; [exact sort_heap_contract|].
  apply (conditional_remove_codes sort_heap_algorithms sort_heap_contract).
  exists [node_at (mkKey 0 0 0)], (with_f_cost (node_at (mkKey 1 0 0)) 10%float),
    [node_at (mkKey 2 0 0)].
  split; [|reflexivity].
  split; [reflexivity|]. split; [reflexivity|].
  constructor; [discriminate|constructor].
Defined.

(** The scenario of C1 run on the reference algorithms, from the empty
    queue: the key is absent, the node of cost 10 is pushed, the candidate
    20 keeps it, the candidate 5 removes it. *)
Example conditional_remove_scenario :
  let K := with_f_cost (node_at (mkKey 4 5 6)) 10%float in
  let q := push sort_heap_algorithms [] K in
  conditional_remove sort_heap_algorithms [] K 5%float = ([], 0)
  /\ conditional_remove sort_heap_algorithms q K 20%float = ([K], -1)
  /\ conditional_remove sort_heap_algorithms q K 5%float = ([], 1).
Proof. by vm_compute. Qed.

(** Pushing three nodes and taking the minimum off: the node of [g_cost] 1
    comes first, whatever its [f_cost]. *)
Example pop_min_example :
  let a := with_f_cost (with_g_cost (node_at (mkKey 0 0 0)) 3%float) 1%float in
  let b := with_f_cost (with_g_cost (node_at (mkKey 1 0 0)) 1%float) 9%float in
  let c := with_f_cost (with_g_cost (node_at (mkKey 2 0 0)) 2%float) 5%float in
  let q := push sort_heap_algorithms
             (push sort_heap_algorithms (push sort_heap_algorithms [] a) b) c in
  is_heap q = true
  /\ pop_min sort_heap_algorithms q = Some (b, [c; a])
  /\ getAllNodes q = [origin; origin; origin].
Proof. by vm_compute. Qed.

(** *** The heap order *)

Lemma heap_parent_lt (i : nat) : (1 <= i)%nat -> (heap_parent i < i)%nat.
Proof.
  intros Hi. unfold heap_parent. apply Nat.Div0.div_lt_upper_bound; lia.
Qed.

Lemma is_heap_lookup (c : list Node) (i : nat) (p x : Node) :
  is_heap c = true -> (1 <= i)%nat ->
  c !! heap_parent i = Some p -> c !! i = Some x -> NodeCompare p x = false.
Proof.
  unfold is_heap. rewrite forallb_forall. intros Hheap Hi Hp Hx.
  assert (heap_ok_at c i = true) as Hok.
  { apply Hheap, in_seq. apply lookup_lt_Some in Hx. lia. }
  unfold heap_ok_at in Hok. rewrite Hp, Hx in Hok. by apply negb_true_iff.
Qed.

(** In a heap of numbers no node is strictly below the front. *)
Lemma heap_front_lowest (c : list Node) (t : Node) :
  is_heap c = true -> Forall (fun n => is_nan (g_cost n) = false) c ->
  head c = Some t ->
  forall i n, c !! i = Some n -> PrimFloat.ltb (g_cost n) (g_cost t) = false.
Proof.
  intros Hheap Hnum Hhead i. induction (lt_wf i) as [i _ IH]. intros n Hn.
  destruct (decide (i = 0%nat)) as [->|Hpos].
  - rewrite head_lookup in Hhead. simplify_eq. apply ltb_irrefl.
  - assert (1 <= i)%nat as Hi by lia.
    pose proof (heap_parent_lt i Hi) as Hlt.
    destruct (lookup_lt_is_Some_2 c (heap_parent i)) as [p Hp].
    { apply lookup_lt_Some in Hn. lia. }
    apply (not_ltb_trans (g_cost t) (g_cost p) (g_cost n)).
    + rewrite Forall_forall in Hnum. apply Hnum. by eapply list_elem_of_lookup_2.
    + by apply (IH (heap_parent i)).
    + by apply (is_heap_lookup c i).
Qed.

(** C2, as the code has it.  In a non-empty frontier (a container in heap
    order for [NodeCompare], whose [g_cost]s are numbers) taking the minimum
    returns the front node, removes one copy of it, and no contained node
    has a lower [g_cost]; [NodeCompare] looks at the [g_cost] of its two
    arguments and at nothing else.  [conditional_remove], however, consults
    the [f_cost] of the stored entry: its code does not change when the
    [g_cost]s of the container are replaced by anything, and it is 1 exactly
    when the [f_cost] of the entry is strictly greater than the candidate. *)
Theorem pop_min_lowest_g_cost (H : HeapAlgorithms) (contract : HeapContract H)
    (c : list Node) :
  c <> [] -> is_heap c = true -> Forall (fun n => is_nan (g_cost n) = false) c ->
  (exists t rest, pop_min H c = Some (t, rest) /\ head c = Some t /\ t :: rest ≡ₚ c
      /\ forall n, n ∈ c -> PrimFloat.leb (g_cost t) (g_cost n) = true)
  /\ (forall a b a' b', g_cost a' = g_cost a -> g_cost b' = g_cost b ->
        NodeCompare a' b' = NodeCompare a b)
  /\ (forall (g : Node -> float) value cost,
        (conditional_remove H (map (fun n => with_g_cost n (g n)) c) value cost).2
        = (conditional_remove H c value cost).2)
  /\ (forall value cost l1 n l2, first_entry (key value) c l1 n l2 ->
        ((conditional_remove H c value cost).2 = 1 <->
         PrimFloat.ltb cost (f_cost n) = true)).
Proof.
  intros Hne Hheap Hnum. split.
  { destruct c as [|t c0]; [done|]. exists t, (pop H (t :: c0)).
    split; [done|]. split; [done|]. split; [by rewrite (pop_perm H contract)|].
    intros n Hin. apply list_elem_of_lookup in Hin as [i Hi].
    rewrite leb_not_ltb.
    - apply negb_true_iff. by apply (heap_front_lowest (t :: c0) t Hheap Hnum eq_refl i).
    - by apply Forall_cons in Hnum as [Ht _].
    - rewrite Forall_forall in Hnum. apply Hnum. by eapply list_elem_of_lookup_2. }
  split; [intros a b a' b' Ha Hb; unfold NodeCompare; by rewrite Ha, Hb|].
  split.
  { intros g value cost. unfold conditional_remove.
    rewrite (find_if_map_key (fun n => with_g_cost n (g n)) value c) by done.
    destruct (find_if (node_equal value) c) as [[i n]|]; [|done]. simpl.
    by destruct (PrimFloat.ltb cost (f_cost n)). }
  intros value cost l1 n l2 Hf.
  rewrite (conditional_remove_present H c value cost l1 n l2 Hf).
  by destruct (PrimFloat.ltb cost (f_cost n)).
Qed.

(** The statement of C2 at a heap of three nodes. *)
Lemma pop_min_lowest_g_cost_witness :
  let c := [with_g_cost (node_at (mkKey 0 0 0)) 1%float;
            with_g_cost (node_at (mkKey 1 0 0)) 3%float;
            with_g_cost (node_at (mkKey 0 1 0)) 2%float] in
  exists t rest, pop_min sort_heap_algorithms c = Some (t, rest) /\ head c = Some t
    /\ t :: rest ≡ₚ c
    /\ forall n, n ∈ c -> PrimFloat.leb (g_cost t) (g_cost n) = true.
Proof.
  intros c.
  apply (pop_min_lowest_g_cost sort_heap_algorithms sort_heap_contract c).
  - discriminate.
  - reflexivity.
  - repeat constructor.
Defined.

(** C2 as stated fails: the cost [conditional_remove] consults is not the
    cost that orders the queue.  A stored entry with [g_cost] 10 and
    [f_cost] 1 is kept for the candidate 5, although its ordering cost is
    strictly greater than the candidate. *)
Lemma conditional_remove_not_by_g_cost :
  ~ (forall (c : list Node) (value : Node) (cost : float) l1 n l2,
       first_entry (key value) c l1 n l2 ->
       ((conditional_remove sort_heap_algorithms c value cost).2 = 1 <->
        PrimFloat.ltb cost (g_cost n) = true)).
Proof.
  intros Hclaim.
  pose (n := with_g_cost (with_f_cost (node_at (mkKey 1 2 3)) 1%float) 10%float).
  destruct (Hclaim [n] n 5%float [] n []) as [_ Hremove].
  - split; [reflexivity|]. split; [reflexivity|constructor].
  - specialize (Hremove eq_refl). vm_compute in Hremove. discriminate.
Qed.

End AstarPriorityQueueFacts.

(** ** More about the open list *)

Module AstarPriorityQueueMore.

Import AstarPriorityQueue AstarPriorityQueueFacts FloatOrder FloatOrderFacts FloatOrderMore.

(** *** The reference algorithms leave a heap *)

Lemma cost_le_total : Total cost_le.
Proof.
  intros a b. unfold cost_le, NodeCompare.
  destruct (PrimFloat.ltb (g_cost b) (g_cost a)) eqn:Hba; [|by left].
  right. by apply ltb_asym.
Qed.

Lemma cost_le_trans (a b c : Node) :
  number b -> cost_le a b -> cost_le b c -> cost_le a c.
Proof.
  unfold number, cost_le, NodeCompare. intros Hb Hab Hbc.
  by apply (not_ltb_trans _ (g_cost b)).
Qed.

Lemma sorted_numbers_strongly (l : list Node) :
  Sorted cost_le l -> Forall number l -> StronglySorted cost_le l.
Proof.
  induction 1 as [|a l Hl IH Hhd]; intros Hnum; [constructor|].
  apply Forall_cons in Hnum as [Ha Hnum]. specialize (IH Hnum).
  constructor; [done|].
  destruct Hhd as [|b l Hab]; [constructor|].
  apply StronglySorted_inv in IH as [_ Hb].
  apply Forall_cons in Hnum as [Hbnum _].
  constructor; [done|]. eapply Forall_impl; [exact Hb|].
  intros x Hbx. by apply (cost_le_trans a b x).
Qed.

Lemma strongly_sorted_lookup (l : list Node) (i j : nat) (a b : Node) :
  StronglySorted cost_le l -> (i < j)%nat -> l !! i = Some a -> l !! j = Some b ->
  cost_le a b.
Proof.
  intros Hsorted. revert i j. induction Hsorted as [|x l _ IH Hx]; intros i j Hij Ha Hb;
    [done|].
  destruct j as [|j]; [lia|]. destruct i as [|i]; simplify_eq/=.
  - rewrite Forall_forall in Hx. apply Hx. by eapply list_elem_of_lookup_2.
  - apply (IH i j); [lia|done..].
Qed.

Lemma sorted_is_heap (l : list Node) :
  Sorted cost_le l -> Forall number l -> is_heap l = true.
Proof.
  intros Hsorted Hnum. apply sorted_numbers_strongly in Hsorted; [|done].
  unfold is_heap. apply forallb_forall. intros i Hi. apply in_seq in Hi.
  unfold heap_ok_at.
  destruct (l !! heap_parent i) as [p|] eqn:Hp; [|done].
  destruct (l !! i) as [x|] eqn:Hx; [|done].
  apply negb_true_iff.
  apply (strongly_sorted_lookup l (heap_parent i) i p x); [done| |done..].
  apply heap_parent_lt. lia.
Qed.

Lemma merge_sort_is_heap (c : list Node) :
  Forall number c -> is_heap (merge_sort cost_le c) = true.
Proof.
  intros Hnum. apply sorted_is_heap.
  - apply (@Sorted_merge_sort _ cost_le _ cost_le_total).
  - by rewrite merge_sort_Permutation.
Qed.

(** The sorting instance meets the order contract too. *)
Lemma sort_heap_order_contract : HeapOrderContract sort_heap_algorithms.
Proof.
  split; simpl.
  - apply merge_sort_is_heap.
  - intros c x Hnum _. by apply merge_sort_is_heap.
  - intros [|t c] c' x Hnum _ Heq.
    + by destruct c'.
    + apply app_inj_tail in Heq as [<- _]. apply merge_sort_is_heap.
      by apply Forall_cons in Hnum as [_ Hnum].
Qed.

(** *** Counting the entries of a key *)

Lemma count_key_app (K : OcTreeKey) (l1 l2 : list Node) :
  count_key K (l1 ++ l2) = (count_key K l1 + count_key K l2)%nat.
Proof. unfold count_key. by rewrite filter_app, length_app. Qed.

Lemma count_key_cons (K : OcTreeKey) (n : Node) (l : list Node) :
  count_key K (n :: l) = ((if decide (key n = K) then 1 else 0) + count_key K l)%nat.
Proof. unfold count_key. rewrite filter_cons. by case_decide. Qed.

Lemma count_key_perm (K : OcTreeKey) (l1 l2 : list Node) :
  l1 ≡ₚ l2 -> count_key K l1 = count_key K l2.
Proof. intros Hperm. unfold count_key. by rewrite Hperm. Qed.

Lemma count_key_absent (K : OcTreeKey) (l : list Node) :
  count_key K l = 0%nat <-> Forall (fun m => key m <> K) l.
Proof.
  induction l as [|n l IH]; [by split; [constructor|]|].
  rewrite count_key_cons, Forall_cons, <- IH. case_decide; split.
  - simpl. lia.
  - by intros [? _].
  - simpl. by split.
  - by intros [_ ?].
Qed.

Section QueueMore.

Variable H : HeapAlgorithms.
Hypothesis contract : HeapContract H.

(** The result of a removal, spelled out. *)
Lemma conditional_remove_removed (c : list Node) (value : Node) (cost : float) :
  (conditional_remove H c value cost).2 = 1 ->
  exists l1 n l2, first_entry (key value) c l1 n l2
                  /\ PrimFloat.ltb cost (f_cost n) = true
                  /\ conditional_remove H c value cost = (make_heap H (l1 ++ l2), 1).
Proof.
  intros Hcode.
  destruct (first_entry_or_absent (key value) c) as [(l1 & n & l2 & Hf)|Hall].
  - exists l1, n, l2. rewrite (conditional_remove_present H c value cost l1 n l2 Hf) in Hcode |- *.
    by destruct (PrimFloat.ltb cost (f_cost n)).
  - by rewrite (conditional_remove_absent H c value cost Hall) in Hcode.
Qed.

Lemma conditional_remove_kept (c : list Node) (value : Node) (cost : float) :
  (conditional_remove H c value cost).2 <> 1 -> (conditional_remove H c value cost).1 = c.
Proof.
  intros Hcode.
  destruct (first_entry_or_absent (key value) c) as [(l1 & n & l2 & Hf)|Hall].
  - rewrite (conditional_remove_present H c value cost l1 n l2 Hf) in Hcode |- *.
    by destruct (PrimFloat.ltb cost (f_cost n)).
  - by rewrite (conditional_remove_absent H c value cost Hall).
Qed.

End QueueMore.

(** [conditional_remove] takes out one entry or none.  When it returns 1,
    the container has one node less, the key has one entry less, and every
    other key has the entries it had: further entries of the same key stay
    in the queue.  When it returns -1 or 0 the container is what it was. *)
Theorem conditional_remove_counts (H : HeapAlgorithms) (contract : HeapContract H)
    (c : list Node) (value : Node) (cost : float) :
  let after := (conditional_remove H c value cost).1 in
  let code := (conditional_remove H c value cost).2 in
  (code = 1 ->
     S (length after) = length c
     /\ S (count_key (key value) after) = count_key (key value) c
     /\ forall K, K <> key value -> count_key K after = count_key K c)
  /\ (code <> 1 -> after = c).
Proof.
  intros after code. split; [|apply conditional_remove_kept].
  intros Hcode. subst after code.
  destruct (conditional_remove_removed H c value cost Hcode)
    as (l1 & n & l2 & (-> & Hn & _) & _ & ->). simpl.
  pose proof (make_heap_perm H contract (l1 ++ l2)) as Hperm.
  split; [rewrite Hperm, !length_app; simpl; lia|].
  split.
  - rewrite (count_key_perm _ _ _ Hperm), !count_key_app, count_key_cons.
    rewrite decide_True by done. lia.
  - intros K HK. rewrite (count_key_perm _ _ _ Hperm), !count_key_app, count_key_cons.
    rewrite decide_False by congruence. lia.
Qed.

(** The statement at a queue with two entries for one key: the first one
    met is removed, the other one stays. *)
Lemma conditional_remove_counts_witness :
  let c := [with_f_cost (node_at (mkKey 1 0 0)) 10%float;
            with_f_cost (node_at (mkKey 1 0 0)) 3%float] in
  let after := (conditional_remove sort_heap_algorithms c (node_at (mkKey 1 0 0)) 5%float).1 in
  S (length after) = length c
  /\ S (count_key (mkKey 1 0 0) after) = count_key (mkKey 1 0 0) c
  /\ count_key (mkKey 1 0 0) after = 1%nat.
Proof.
  intros c after.
  destruct (conditional_remove_counts sort_heap_algorithms sort_heap_contract c
              (node_at (mkKey 1 0 0)) 5%float) as [Hremoved _].
  destruct Hremoved as (Hlen & Hcount & _); [reflexivity|].
  split; [exact Hlen|]. split; [exact Hcount|]. reflexivity.
Defined.

(** Decrease-key, as the queue offers it: when the keys of the container
    are pairwise distinct and [conditional_remove] for a node does not
    answer -1, pushing that node leaves the keys pairwise distinct, with
    exactly one entry for the node's key. *)
Theorem decrease_key_keeps_keys_distinct (H : HeapAlgorithms) (contract : HeapContract H)
    (c : list Node) (s : Node) (cost : float) :
  NoDup (map key c) ->
  (conditional_remove H c s cost).2 <> -1 ->
  NoDup (map key (push H (conditional_remove H c s cost).1 s))
  /\ count_key (key s) (push H (conditional_remove H c s cost).1 s) = 1%nat.
Proof.
  intros Hdistinct Hcode.
  assert (Forall (fun m => key m <> key s) (conditional_remove H c s cost).1
          /\ NoDup (map key (conditional_remove H c s cost).1)) as [Habsent Hnodup].
  { destruct (first_entry_or_absent (key s) c) as [(l1 & n & l2 & Hf)|Hall].
    - rewrite (conditional_remove_present H c s cost l1 n l2 Hf) in Hcode |- *.
      destruct (PrimFloat.ltb cost (f_cost n)); [|done]. simpl.
      destruct Hf as (-> & Hn & _).
      rewrite (make_heap_perm H contract).
      rewrite fmap_app, fmap_cons in Hdistinct.
      apply NoDup_app in Hdistinct as (Hl1 & Hcross & Hl2).
      apply NoDup_cons in Hl2 as [Hnl2 Hl2].
      split.
      + apply Forall_app. split; apply Forall_forall; intros m Hm Hkey.
        * apply (Hcross (key m)); [by apply list_elem_of_fmap_2|].
          rewrite Hkey, <- Hn. left.
        * apply Hnl2. rewrite Hn, <- Hkey. by apply list_elem_of_fmap_2.
      + rewrite fmap_app. apply NoDup_app. split; [done|]. split; [|done].
        intros K HK1 HK2. apply (Hcross K HK1). by right.
    - by rewrite (conditional_remove_absent H c s cost Hall). }
  pose proof (push_perm H contract (conditional_remove H c s cost).1 s) as Hperm.
  split.
  - rewrite Hperm, fmap_cons. apply NoDup_cons. split; [|done].
    intros Hin. apply list_elem_of_fmap in Hin as (m & Hkey & Hm).
    rewrite Forall_forall in Habsent. by apply (Habsent m Hm).
  - rewrite (count_key_perm _ _ _ Hperm), count_key_cons, decide_True by done.
    apply count_key_absent in Habsent. by rewrite Habsent.
Qed.

(** The statement at a queue of two keys, one of them replaced by a better
    node. *)
Lemma decrease_key_keeps_keys_distinct_witness :
  let c := [with_f_cost (node_at (mkKey 0 0 0)) 4%float;
            with_f_cost (node_at (mkKey 1 0 0)) 10%float] in
  let s := with_f_cost (node_at (mkKey 1 0 0)) 5%float in
  NoDup (map key (push sort_heap_algorithms
                    (conditional_remove sort_heap_algorithms c s 5%float).1 s)).
Proof.
  intros c s.
  apply (decrease_key_keeps_keys_distinct sort_heap_algorithms sort_heap_contract c s
           5%float).
  - apply NoDup_cons. split; [|apply NoDup_singleton].
    intros Hin. apply list_elem_of_singleton in Hin. discriminate.
  - discriminate.
Defined.

(** A cost that is not a number never removes anything: when the candidate
    or the stored [f_cost] is a NaN the comparison fails, the code is -1 for
    a present key, and the container is untouched. *)
Theorem conditional_remove_nan_keeps (H : HeapAlgorithms) (c : list Node) (value : Node)
    (cost : float) :
  (is_nan cost = true ->
     (conditional_remove H c value cost).2 <> 1
     /\ (conditional_remove H c value cost).1 = c)
  /\ (forall l1 n l2, first_entry (key value) c l1 n l2 ->
        is_nan cost = true \/ is_nan (f_cost n) = true ->
        conditional_remove H c value cost = (c, -1)).
Proof.
  assert (forall l1 n l2, first_entry (key value) c l1 n l2 ->
            is_nan cost = true \/ is_nan (f_cost n) = true ->
            conditional_remove H c value cost = (c, -1)) as Hnan.
  { intros l1 n l2 Hf Hor.
    rewrite (conditional_remove_present H c value cost l1 n l2 Hf).
    assert (PrimFloat.ltb cost (f_cost n) = false) as ->; [|done].
    destruct Hor; [by apply ltb_nan_l|by apply ltb_nan_r]. }
  split; [|exact Hnan]. intros Hcost.
  destruct (first_entry_or_absent (key value) c) as [(l1 & n & l2 & Hf)|Hall].
  - by rewrite (Hnan l1 n l2 Hf (or_introl Hcost)).
  - by rewrite (conditional_remove_absent H c value cost Hall).
Qed.

(** A better candidate removes whenever a worse one does: if the candidate
    [cost'] removes the entry and [cost <= cost'], the candidate [cost]
    removes it too, with the same result. *)
Theorem conditional_remove_monotone (H : HeapAlgorithms) (c : list Node) (value : Node)
    (cost cost' : float) :
  PrimFloat.leb cost cost' = true ->
  (conditional_remove H c value cost').2 = 1 ->
  conditional_remove H c value cost = conditional_remove H c value cost'.
Proof.
  intros Hle Hcode.
  destruct (conditional_remove_removed H c value cost' Hcode)
    as (l1 & n & l2 & Hf & Hgt & ->).
  rewrite (conditional_remove_present H c value cost l1 n l2 Hf).
  by rewrite (leb_ltb_trans cost cost' (f_cost n) Hle Hgt).
Qed.

(** The statement for the candidates 2 and 5 against a stored cost 10. *)
Lemma conditional_remove_monotone_witness :
  let c := [with_f_cost (node_at (mkKey 1 0 0)) 10%float] in
  conditional_remove sort_heap_algorithms c (node_at (mkKey 1 0 0)) 2%float
  = conditional_remove sort_heap_algorithms c (node_at (mkKey 1 0 0)) 5%float.
Proof.
  intros c.
  apply (conditional_remove_monotone sort_heap_algorithms c (node_at (mkKey 1 0 0))
           2%float 5%float); reflexivity.
Defined.

(** Push, then [conditional_remove] with the key of the pushed node: the
    key is never reported absent.  When the key was absent before the push,
    the candidate decides alone: below the pushed node's [f_cost] the node
    is removed, the container holds again what it held before the push, and
    a second removal reports the key absent; otherwise the node is kept. *)
Theorem push_then_conditional_remove (H : HeapAlgorithms) (contract : HeapContract H)
    (c : list Node) (x : Node) (cost : float) :
  let r := conditional_remove H (push H c x) x cost in
  r.2 <> 0
  /\ (Forall (fun m => key m <> key x) c ->
      (PrimFloat.ltb cost (f_cost x) = true ->
         r.2 = 1 /\ r.1 ≡ₚ c /\ conditional_remove H r.1 x cost = (r.1, 0))
      /\ (PrimFloat.ltb cost (f_cost x) = false -> r = (push H c x, -1))).
Proof.
  intros r. subst r. split.
  - destruct (first_entry_or_absent (key x) (push H c x)) as [(l1 & n & l2 & Hf)|Hall].
    + rewrite (conditional_remove_present H _ x cost l1 n l2 Hf).
      by destruct (PrimFloat.ltb cost (f_cost n)).
    + rewrite (push_perm H contract) in Hall. by apply Forall_cons in Hall as [Hx _].
  - intros Hall. destruct (first_entry_push H contract c x Hall) as (l1 & l2 & Hf & Hperm).
    rewrite (conditional_remove_present H _ x cost l1 x l2 Hf).
    split; intros ->; [|done]. simpl.
    pose proof (make_heap_perm H contract (l1 ++ l2)) as Hheap.
    split; [done|]. split; [by rewrite Hheap|].
    apply conditional_remove_absent. by rewrite Hheap, Hperm.
Qed.

(** The statement at a queue of one node, for a second key. *)
Lemma push_then_conditional_remove_witness :
  let c := [with_f_cost (node_at (mkKey 0 0 0)) 4%float] in
  let x := with_f_cost (node_at (mkKey 1 0 0)) 7%float in
  (conditional_remove sort_heap_algorithms (push sort_heap_algorithms c x) x 6%float).1
  ≡ₚ c.
Proof.
  intros c x.
  destruct (push_then_conditional_remove sort_heap_algorithms sort_heap_contract c x
              6%float) as [_ Hfresh].
  destruct Hfresh as [Hremoved _].
  - constructor; [discriminate|constructor].
  - destruct Hremoved as (_ & Hperm & _); [reflexivity|]. exact Hperm.
Defined.

Lemma conditional_remove_keeps_heap_order_aux (H : HeapAlgorithms)
    (contract : HeapContract H) (order : HeapOrderContract H)
    (c : list Node) (value : Node) (cost : float) :
  is_heap c = true -> Forall number c ->
  is_heap (conditional_remove H c value cost).1 = true
  /\ Forall number (conditional_remove H c value cost).1.
Proof.
  intros Hheap Hnum.
  destruct (decide ((conditional_remove H c value cost).2 = 1)) as [Hcode|Hcode].
  - destruct (conditional_remove_removed H c value cost Hcode)
      as (l1 & n & l2 & (-> & _ & _) & _ & ->). simpl.
    assert (Forall number (l1 ++ l2)) as Hrest.
    { apply Forall_app in Hnum as [Hl1 Hl2]. apply Forall_cons in Hl2 as [_ Hl2].
      by apply Forall_app. }
    split; [by apply (make_heap_is_heap H order)|].
    by rewrite (make_heap_perm H contract).
  - by rewrite (conditional_remove_kept H c value cost Hcode).
Qed.

(** [conditional_remove] keeps the queue a heap: on a container in heap
    order whose ordering costs are numbers, the container it leaves is in
    heap order again, so its front is again a node of lowest [g_cost]. *)
Theorem conditional_remove_keeps_heap_order (H : HeapAlgorithms)
    (contract : HeapContract H) (order : HeapOrderContract H)
    (c : list Node) (value : Node) (cost : float) :
  is_heap c = true -> Forall number c ->
  let after := (conditional_remove H c value cost).1 in
  is_heap after = true
  /\ Forall number after
  /\ (forall t, head after = Some t ->
        forall n, n ∈ after -> PrimFloat.leb (g_cost t) (g_cost n) = true).
Proof.
  intros Hheap Hnum after.
  destruct (conditional_remove_keeps_heap_order_aux H contract order c value cost
              Hheap Hnum) as [Hheap' Hnum']. fold after in Hheap', Hnum'.
  split; [done|]. split; [done|].
  intros t Ht n Hn. apply list_elem_of_lookup in Hn as [i Hi].
  pose proof (heap_front_lowest after t Hheap' Hnum' Ht i n Hi) as Hlow.
  rewrite Forall_forall in Hnum'. rewrite leb_not_ltb.
  - by apply negb_true_iff.
  - apply Hnum'. rewrite head_lookup in Ht. by eapply list_elem_of_lookup_2.
  - apply Hnum'. by eapply list_elem_of_lookup_2.
Qed.

(** The statement at a heap of three nodes from which the front is
    removed. *)
Lemma conditional_remove_keeps_heap_order_witness :
  let c := [with_f_cost (with_g_cost (node_at (mkKey 0 0 0)) 1%float) 9%float;
            with_g_cost (node_at (mkKey 1 0 0)) 3%float;
            with_g_cost (node_at (mkKey 0 1 0)) 2%float] in
  is_heap (conditional_remove sort_heap_algorithms c (node_at (mkKey 0 0 0)) 5%float).1
  = true.
Proof.
  intros c.
  apply (conditional_remove_keeps_heap_order sort_heap_algorithms sort_heap_contract
           sort_heap_order_contract c (node_at (mkKey 0 0 0)) 5%float).
  - reflexivity.
  - repeat constructor.
Defined.

(** Push, then take the minimum: on a heap of numbers the node that comes
    out has a [g_cost] no higher than the pushed node's and than that of
    every node the queue held; what stays is the rest, in heap order. *)
Theorem push_then_pop_min_lowest (H : HeapAlgorithms) (contract : HeapContract H)
    (order : HeapOrderContract H) (c : list Node) (x : Node) :
  is_heap c = true -> Forall number c -> number x ->
  exists t rest,
    pop_min H (push H c x) = Some (t, rest)
    /\ t :: rest ≡ₚ x :: c
    /\ is_heap rest = true
    /\ PrimFloat.leb (g_cost t) (g_cost x) = true
    /\ forall n, n ∈ c -> PrimFloat.leb (g_cost t) (g_cost n) = true.
Proof.
  intros Hheap Hnum Hx.
  assert (Forall number (c ++ [x])) as Hnum' by (apply Forall_app; split; by repeat constructor).
  pose proof (push_heap_is_heap H order c x Hnum' Hheap) as Hpushed.
  fold (push H c x) in Hpushed.
  pose proof (push_perm H contract c x) as Hperm.
  assert (Forall number (push H c x)) as Hnums by (rewrite Hperm; by constructor).
  destruct (push H c x) as [|t q] eqn:Hq.
  { by apply Permutation_nil_cons in Hperm. }
  destruct (pop_heap_back H contract t q) as (rest & Hpop & Hrest).
  exists t, rest. unfold pop_min, pop. simpl. rewrite Hpop, removelast_last.
  split; [done|]. split; [by rewrite Hrest|].
  split; [by apply (pop_heap_is_heap H order (t :: q) rest t)|].
  assert (forall n, n ∈ t :: q -> PrimFloat.leb (g_cost t) (g_cost n) = true) as Hlow.
  { intros n Hn. apply list_elem_of_lookup in Hn as [i Hi].
    pose proof (heap_front_lowest (t :: q) t Hpushed Hnums eq_refl i n Hi) as Hlow.
    rewrite Forall_forall in Hnums. rewrite leb_not_ltb.
    - by apply negb_true_iff.
    - apply Hnums. left.
    - apply Hnums. by eapply list_elem_of_lookup_2. }
  split; [apply Hlow; rewrite Hperm; left|].
  intros n Hn. apply Hlow. rewrite Hperm. by right.
Qed.

(** The statement at a heap of two nodes and a pushed node of lower cost. *)
Lemma push_then_pop_min_lowest_witness :
  let c := [with_g_cost (node_at (mkKey 0 0 0)) 2%float;
            with_g_cost (node_at (mkKey 1 0 0)) 3%float] in
  let x := with_g_cost (node_at (mkKey 0 1 0)) 1%float in
  exists t rest,
    pop_min sort_heap_algorithms (push sort_heap_algorithms c x) = Some (t, rest)
    /\ t :: rest ≡ₚ x :: c
    /\ is_heap rest = true
    /\ PrimFloat.leb (g_cost t) (g_cost x) = true
    /\ forall n, n ∈ c -> PrimFloat.leb (g_cost t) (g_cost n) = true.
Proof.
  intros c x.
  apply (push_then_pop_min_lowest sort_heap_algorithms sort_heap_contract
           sort_heap_order_contract c x).
  - reflexivity.
  - repeat constructor.
  - reflexivity.
Defined.

(** [getAllNodes] follows the queue: it has one pose per contained node, in
    container order; after a push it holds the pose of the pushed node
    besides the poses it held, after a removal by [conditional_remove] the
    poses it held without the pose of the removed entry, and after a pop the
    poses it held without the pose of the front node. *)
Theorem getAllNodes_follows_queue (H : HeapAlgorithms) (contract : HeapContract H)
    (c : list Node) :
  length (getAllNodes c) = length c
  /\ (forall i, getAllNodes c !! i = pose <$> c !! i)
  /\ (forall x, getAllNodes (push H c x) ≡ₚ pose x :: getAllNodes c)
  /\ (forall value cost l1 n l2, first_entry (key value) c l1 n l2 ->
        (conditional_remove H c value cost).2 = 1 ->
        pose n :: getAllNodes (conditional_remove H c value cost).1 ≡ₚ getAllNodes c)
  /\ (forall t, top c = Some t -> pose t :: getAllNodes (pop H c) ≡ₚ getAllNodes c).
Proof.
  unfold getAllNodes.
  split; [apply length_map|].
  split; [intros i; apply list_lookup_fmap|].
  split; [intros x; by rewrite (push_perm H contract)|].
  split.
  - intros value cost l1 n l2 Hf.
    rewrite (conditional_remove_present H c value cost l1 n l2 Hf).
    destruct Hf as (-> & _ & _).
    destruct (PrimFloat.ltb cost (f_cost n)); [|done]. intros _. simpl.
    rewrite (make_heap_perm H contract), !map_app. simpl.
    by rewrite Permutation_middle.
  - intros t Ht. destruct c as [|t' c]; simplify_eq/=.
    by rewrite (pop_perm H contract).
Qed.

(** The statement at a queue of two nodes with different poses. *)
Lemma getAllNodes_follows_queue_witness :
  let a := mkNode (mkKey 0 0 0) (mkPoint 1%float 2%float 3%float) (mkKey 0 0 0)
                  1%float 0%float 0%float 0%float 0%float 0%float 0 in
  let b := mkNode (mkKey 1 0 0) (mkPoint 4%float 5%float 6%float) (mkKey 0 0 0)
                  2%float 0%float 0%float 0%float 0%float 0%float 1 in
  getAllNodes (push sort_heap_algorithms [a] b)
  ≡ₚ [mkPoint 4%float 5%float 6%float; mkPoint 1%float 2%float 3%float].
Proof.
  intros a b.
  apply (getAllNodes_follows_queue sort_heap_algorithms sort_heap_contract [a]).
Defined.

(** Every container a queue can hold is in heap order, whatever sequence
    of pushes, pops and conditional removals built it, so its front is
    always a node of lowest [g_cost]. *)
Theorem reachable_queue_is_heap (H : HeapAlgorithms) (contract : HeapContract H)
    (order : HeapOrderContract H) (c : list Node) :
  reachable H c ->
  is_heap c = true
  /\ Forall number c
  /\ (forall t, top c = Some t ->
        forall n, n ∈ c -> PrimFloat.leb (g_cost t) (g_cost n) = true).
Proof.
  intros Hreach.
  assert (is_heap c = true /\ Forall number c) as [Hheap Hnum].
  { induction Hreach as [|c x _ [Hheap Hnum] Hx|c _ [Hheap Hnum] Hne
                         |c value cost _ [Hheap Hnum]].
    - by split.
    - assert (Forall number (c ++ [x])) as Hnum'
        by (apply Forall_app; split; by repeat constructor).
      split; [by apply (push_heap_is_heap H order)|].
      rewrite (push_perm H contract). by constructor.
    - destruct c as [|t q]; [done|].
      destruct (pop_heap_back H contract t q) as (rest & Hpop & Hrest).
      unfold pop. rewrite Hpop, removelast_last.
      split; [by apply (pop_heap_is_heap H order (t :: q) rest t)|].
      rewrite Hrest. by apply Forall_cons in Hnum as [_ Hq].
    - destruct (conditional_remove_keeps_heap_order_aux H contract order c value cost
                  Hheap Hnum) as [Hh Hn]. by split. }
  split; [done|]. split; [done|].
  intros t Ht n Hn. apply list_elem_of_lookup in Hn as [i Hi].
  pose proof (heap_front_lowest c t Hheap Hnum Ht i n Hi) as Hlow.
  rewrite Forall_forall in Hnum. rewrite leb_not_ltb.
  - by apply negb_true_iff.
  - apply Hnum. unfold top in Ht. rewrite head_lookup in Ht.
    by eapply list_elem_of_lookup_2.
  - apply Hnum. by eapply list_elem_of_lookup_2.
Qed.

(** The statement at the queue built by two pushes, a conditional removal
    and a pop. *)
Lemma reachable_queue_is_heap_witness :
  let a := with_f_cost (with_g_cost (node_at (mkKey 0 0 0)) 3%float) 9%float in
  let b := with_g_cost (node_at (mkKey 1 0 0)) 1%float in
  let q := push sort_heap_algorithms (push sort_heap_algorithms [] a) b in
  is_heap (pop sort_heap_algorithms (conditional_remove sort_heap_algorithms q a 5%float).1)
  = true.
Proof.
  intros a b q.
  apply (reachable_queue_is_heap sort_heap_algorithms sort_heap_contract
           sort_heap_order_contract).
  apply reachable_pop; [|discriminate].
  apply reachable_remove.
  apply reachable_push; [|reflexivity].
  apply reachable_push; [|reflexivity].
  apply reachable_empty.
Defined.

End AstarPriorityQueueMore.

(** ** The planner: adjacency of the moves *)

Module PlannerFacts.

Import AstarPriorityQueue AstarPriorityQueueFacts FloatOrder FloatOrderFacts Planner.

Lemma adjacent_spec (c : Connectivity) (a b : OcTreeKey) :
  adjacent c a b = true <-> adjacent_prop c a b.
Proof.
  destruct c; unfold adjacent, adjacent_prop, axis_distances.
  - rewrite !filter_cons, filter_nil.
    repeat case_decide; simpl; rewrite ?andb_true_iff, ?orb_true_iff, ?Z.eqb_eq;
      (split; intros Hadj); try discriminate Hadj; try lia; try (exfalso; lia);
      repeat split; try reflexivity; lia.
  - simpl. rewrite !andb_true_iff, !Z.leb_le. tauto.
Qed.

Lemma adjacent_key_add (c : Connectivity) (k : OcTreeKey) (d : Offset) :
  adjacent c k (key_add k d) = adjacent c (mkKey 0 0 0) (key_add (mkKey 0 0 0) d).
Proof.
  destruct d as [[dx dy] dz]. unfold adjacent, axis_distances, key_add. simpl.
  replace (k0 k - (k0 k + dx)) with (0 - (0 + dx)) by lia.
  replace (k1 k - (k1 k + dy)) with (0 - (0 + dy)) by lia.
  replace (k2 k - (k2 k + dz)) with (0 - (0 + dz)) by lia.
  reflexivity.
Qed.

(** Every move of a mode leads to an adjacent key. *)
Lemma moves_adjacent (c : Connectivity) (d : Offset) (k : OcTreeKey) :
  In d (moves c) -> adjacent c k (key_add k d) = true.
Proof.
  intros Hin. rewrite adjacent_key_add.
  assert (forallb (fun d => adjacent c (mkKey 0 0 0) (key_add (mkKey 0 0 0) d)) (moves c)
          = true) as Hall by (destruct c; vm_compute; reflexivity).
  rewrite forallb_forall in Hall. by apply Hall.
Qed.

Lemma pruning_table_moves (c : Connectivity) (entry : Offset * list Offset) :
  In entry (pruning_table c) -> In (fst entry) (moves c).
Proof.
  unfold pruning_table. rewrite in_map_iff. intros (d & <- & Hd). exact Hd.
Qed.

Lemma fully_connected_lookup (c : Connectivity) (l : list OcTreeKey) :
  fully_connected c l = true <->
  forall i a b, l !! i = Some a -> l !! S i = Some b -> adjacent c a b = true.
Proof.
  induction l as [|a [|b l] IH].
  - split; [intros _ i a b Ha; by destruct i|done].
  - split; [intros _ i x y _ Hy; by destruct i|done].
  - change (fully_connected c (a :: b :: l))
      with (adjacent c a b && fully_connected c (b :: l)).
    rewrite andb_true_iff, IH. split.
    + intros [Hab Hrest] [|i] x y Hx Hy; simplify_eq/=; [done|].
      by apply (Hrest i).
    + intros Hall. split; [by apply (Hall 0%nat)|].
      intros i x y Hx Hy. by apply (Hall (S i)).
Qed.

(** ** The planner: what the search maintains *)

Section SearchFacts.

Variable H : HeapAlgorithms.
Hypothesis contract : HeapContract H.
Variable octree : OccupancyMapAdapter.
Variable bounds : GridBounds.
Variable cfg : Config.
Variable elapsed : nat -> float.
Variable start : OcTreeKey.

Local Abbreviation sound := (node_ok octree bounds cfg start).

Lemma successors_ok (goal : OcTreeKey) (cur n : Node) :
  n ∈ getPossibleSuccessors octree bounds cfg goal cur -> sound n.
Proof.
  unfold getPossibleSuccessors. rewrite list_elem_of_omap.
  intros (entry & Hentry & Hn).
  destruct (isNodeValid octree bounds cfg (key_add (key cur) entry.1)) eqn:Hvalid;
    [|discriminate].
  destruct (move_legal octree (key cur) entry.2); [|discriminate].
  simpl in Hn. injection Hn as <-. split; [exact Hvalid|]. right. simpl.
  apply moves_adjacent, pruning_table_moves. by apply list_elem_of_In.
Qed.

Lemma conditional_remove_subset (c : list Node) (value : Node) (cost : float) (x : Node) :
  x ∈ (conditional_remove H c value cost).1 -> x ∈ c.
Proof.
  destruct (first_entry_or_absent (key value) c) as [(l1 & n & l2 & Hf)|Hall].
  - rewrite (conditional_remove_present H c value cost l1 n l2 Hf).
    destruct Hf as (-> & _ & _).
    destruct (PrimFloat.ltb cost (f_cost n)); simpl; [|done].
    rewrite (make_heap_perm H contract), !elem_of_app. intros [Hx|Hx]; [by left|].
    right. by right.
  - by rewrite (conditional_remove_absent H c value cost Hall).
Qed.

Lemma offer_ok (P : Node -> Prop) (closed : gmap OcTreeKey Node) (open : list Node)
    (s : Node) :
  Forall P open -> P s -> Forall P (offer H closed open s).
Proof.
  intros Hopen Hs. unfold offer. destruct (closed_no_worse closed s); [done|].
  pose proof (conditional_remove_subset open s (f_cost s)) as Hsub.
  destruct (conditional_remove H open s (f_cost s)) as [open' code]. simpl in Hsub.
  assert (Forall P open') as Hopen'.
  { rewrite Forall_forall in Hopen |- *. intros x Hx. by apply Hopen, Hsub. }
  destruct (code =? -1); [done|].
  rewrite (push_perm H contract). by constructor.
Qed.

Lemma offers_ok (P : Node -> Prop) (closed : gmap OcTreeKey Node) (succs open : list Node) :
  Forall P open -> Forall P succs -> Forall P (foldl (offer H closed) open succs).
Proof.
  revert open. induction succs as [|s succs IH]; intros open Hopen Hsuccs; [done|].
  apply Forall_cons in Hsuccs as [Hs Hsuccs]. simpl. apply IH; [|done].
  by apply offer_ok.
Qed.

Lemma pop_min_Some (c : list Node) (cur : Node) (open' : list Node) :
  pop_min H c = Some (cur, open') -> cur :: open' ≡ₚ c.
Proof.
  unfold pop_min, top. destruct c as [|t c0]; [discriminate|]. simpl.
  intros [= <- <-]. by rewrite (pop_perm H contract).
Qed.

Lemma backtrack_ok (closed : gmap OcTreeKey Node) (fuel : nat) (n : Node) (acc : list Node) :
  closed_ok octree bounds cfg start closed -> sound n ->
  path_ok octree bounds cfg (n :: acc) ->
  path_ok octree bounds cfg (backtrack fuel closed start n acc).
Proof.
  intros Hclosed. revert n acc.
  induction fuel as [|fuel IH]; intros n acc Hn Hpath; simpl; case_decide; try done.
  destruct (closed !! parent_key n) as [p|] eqn:Hp; [|done].
  destruct (Hclosed _ _ Hp) as [Hkey Hsound]. apply IH; [done|].
  destruct Hpath as [Hvalid Hconn]. split.
  - constructor; [by destruct Hsound|done].
  - change (adjacent (connectivity cfg) (key p) (key n)
            && fully_connected (connectivity cfg) (map key (n :: acc)) = true).
    rewrite Hconn, Hkey, andb_true_r. by destruct Hn as [_ [?|?]].
Qed.

Lemma reconstruct_ok (closed : gmap OcTreeKey Node) (n : Node) :
  closed_ok octree bounds cfg start closed -> sound n ->
  path_ok octree bounds cfg (reconstruct closed start n).
Proof.
  intros Hclosed Hn. apply backtrack_ok; [done..|].
  split; [|done]. constructor; [by destruct Hn|constructor].
Qed.

Lemma search_loop_ok (goal : OcTreeKey) (fuel iter : nat) (st : SearchState)
    (path : list Node) :
  state_ok octree bounds cfg start st ->
  search_loop H octree bounds cfg elapsed fuel iter start goal st = Some (Found path) ->
  path_ok octree bounds cfg path.
Proof.
  revert iter st. induction fuel as [|fuel IH]; intros iter st (Hopen & Hclosed & Hbest);
    simpl; [discriminate|].
  destruct (PrimFloat.ltb (planningTimeout cfg) (elapsed iter)).
  { destruct (breakAtTimeout cfg); [|discriminate].
    intros [= <-]. by apply reconstruct_ok. }
  destruct (pop_min H (open_list st)) as [[cur open']|] eqn:Hpop; [|discriminate].
  apply pop_min_Some in Hpop. rewrite <- Hpop in Hopen.
  apply Forall_cons in Hopen as [Hcur Hopen'].
  destruct (closed_no_worse (closed_list st) cur).
  { apply IH. by split. }
  assert (closed_ok octree bounds cfg start (<[key cur := cur]> (closed_list st)))
    as Hclosed' by by apply map_Forall_insert_2.
  destruct (isNodeGoal cfg goal cur).
  { intros [= <-]. by apply reconstruct_ok. }
  apply IH. split; [|split]; simpl.
  - apply offers_ok; [done|]. apply Forall_forall. intros n. apply successors_ok.
  - done.
  - by destruct (PrimFloat.ltb _ _).
Qed.

End SearchFacts.

(** Every path that a planning call returns is sound. *)
Lemma getNodePath_ok (H : HeapAlgorithms) (contract : HeapContract H)
    (octree : OccupancyMapAdapter) (bounds : GridBounds) (cfg : Config)
    (elapsed : nat -> float) (fuel : nat) (start_point goal_point : point3d)
    (path : list Node) :
  getNodePath H octree bounds cfg elapsed fuel start_point goal_point = Some (Found path) ->
  path_ok octree bounds cfg path.
Proof.
  unfold getNodePath.
  destruct (isNodeValid octree bounds cfg (worldToKey octree start_point)) eqn:Hstart;
    [|discriminate]. simpl.
  destruct (resolve_goal octree bounds cfg (worldToKey octree goal_point)) as [goal|];
    [|discriminate].
  apply (search_loop_ok H contract).
  assert (node_ok octree bounds cfg (worldToKey octree start_point)
            (start_node octree cfg (worldToKey octree start_point) goal)) as Hnode
    by (split; [done|by left]).
  split; [|split]; simpl; [|apply map_Forall_empty|done].
  rewrite (push_perm H contract). by repeat constructor.
Qed.

(** ** The planner: the returned path *)

(** The demo search finds the way round the wall, nine keys long. *)
Example demo_plan_found :
  Demo.plan Connected6 = Some (Found (Demo.planned_path Connected6))
  /\ getKeyPath (Demo.planned_path Connected6)
     = [mkKey 0 0 0; mkKey 0 1 0; mkKey 0 2 0; mkKey 0 3 0; mkKey 1 3 0;
        mkKey 2 3 0; mkKey 2 2 0; mkKey 2 1 0; mkKey 2 0 0].
Proof. by vm_compute. Qed.



Lemma isNodeValid_spec (octree : OccupancyMapAdapter) (bounds : GridBounds) (cfg : Config)
    (k : OcTreeKey) :
  isNodeValid octree bounds cfg k = true ->
  occupancy octree k <> Occupied /\ occupancy octree k <> OutOfBounds
  /\ within_bounds bounds k = true.
Proof.
  unfold isNodeValid, traversable. rewrite andb_true_iff. intros [Hin Hfree].
  by destruct (occupancy octree k).
Qed.

Lemma within_bounds_spec (b : GridBounds) (k : OcTreeKey) :
  within_bounds b k = true <->
  k0 (min_key b) <= k0 k <= k0 (max_key b)
  /\ k1 (min_key b) <= k1 k <= k1 (max_key b)
  /\ k2 (min_key b) <= k2 k <= k2 (max_key b).
Proof.
  unfold within_bounds. rewrite !andb_true_iff, !Z.leb_le. tauto.
Qed.



(** ** The safety inflation *)

Section SafePathFacts.

Variable octree : OccupancyMapAdapter.
Variable bounds : GridBounds.
Variable cfg : Config.
Variables safe_dist z_diff_tolerance : float.
Variable fix_goal_point : bool.

(** A waypoint that is not too close to the obstacles stays where it is. *)
Lemma relocate_safe (pinned : bool) (k : OcTreeKey) :
  PrimFloat.leb safe_dist (obstacle_distance octree k) = true ->
  relocate octree bounds cfg safe_dist z_diff_tolerance pinned k = (k, false).
Proof.
  intros Hsafe. unfold relocate. by rewrite (leb_ltb_false _ _ Hsafe).
Qed.

Lemma reconnect_unmoved (p : option OcTreeKey) (k : OcTreeKey) :
  reconnect octree bounds cfg (option_map (fun q => (q, false)) p) k false = [].
Proof. by destruct p. Qed.

Lemma safe_pass_safe (p : option OcTreeKey) (key_path : list OcTreeKey) :
  Forall (fun k => PrimFloat.leb safe_dist (obstacle_distance octree k) = true) key_path ->
  safe_pass octree bounds cfg safe_dist z_diff_tolerance fix_goal_point
            (option_map (fun q => (q, false)) p) key_path = key_path.
Proof.
  intros Hsafe. revert p. induction Hsafe as [|k rest Hk _ IH]; intros p; [done|].
  simpl. rewrite (relocate_safe _ k Hk), reconnect_unmoved. simpl.
  f_equal. apply (IH (Some k)).
Qed.

Lemma safe_passes_safe (n : nat) (key_path : list OcTreeKey) :
  Forall (fun k => PrimFloat.leb safe_dist (obstacle_distance octree k) = true) key_path ->
  safe_passes octree bounds cfg n safe_dist z_diff_tolerance fix_goal_point key_path
  = key_path.
Proof.
  intros Hsafe. destruct n as [|n]; [done|]. simpl.
  pose proof (safe_pass_safe None key_path Hsafe) as Hpass. simpl in Hpass.
  rewrite Hpass. by case_decide.
Qed.

End SafePathFacts.

(** C7. [getSafePath] leaves an already safe path as it is: when every
    waypoint lies at least [safe_dist] from the nearest obstacle the result
    is the path itself, so running it again changes nothing either. *)
Theorem getSafePath_safe_path_unchanged (octree : OccupancyMapAdapter)
    (bounds : GridBounds) (cfg : Config) (key_path : list OcTreeKey) (safe_dist : float)
    (max_iteration : Z) (z_diff_tolerance : float) (fix_goal_point : bool) :
  Forall (fun k => PrimFloat.leb safe_dist (obstacle_distance octree k) = true) key_path ->
  getSafePath octree bounds cfg key_path safe_dist max_iteration z_diff_tolerance
              fix_goal_point = key_path
  /\ getSafePath octree bounds cfg
       (getSafePath octree bounds cfg key_path safe_dist max_iteration z_diff_tolerance
                    fix_goal_point)
       safe_dist max_iteration z_diff_tolerance fix_goal_point
     = getSafePath octree bounds cfg key_path safe_dist max_iteration z_diff_tolerance
                   fix_goal_point.
Proof.
  intros Hsafe.
  assert (getSafePath octree bounds cfg key_path safe_dist max_iteration z_diff_tolerance
                      fix_goal_point = key_path) as Hsame
    by by apply safe_passes_safe.
  by rewrite !Hsame.
Qed.

(** The statement of C7 at the demo path two voxels from the wall, with the
    safe distance 2. *)
Lemma getSafePath_safe_path_unchanged_witness :
  getSafePath Demo.octree Demo.slab (Demo.config Connected26) Demo.far_path
              2%float 5 1%float true = Demo.far_path.
Proof.
  apply (getSafePath_safe_path_unchanged Demo.octree Demo.slab (Demo.config Connected26)
           Demo.far_path 2%float 5 1%float true).
  repeat constructor.
Defined.

(** A path one voxel from the wall is not safe for the distance 2: the pass
    moves its waypoints away from the wall, the pinned goal excepted, and
    reconnects the path. *)
Example getSafePath_moves_unsafe_path :
  getSafePath Demo.octree Demo.slab (Demo.config Connected26) Demo.near_path
              2%float 5 1%float true
  = [mkKey 3 0 0; mkKey 3 1 0; mkKey 2 2 0].
Proof. by vm_compute. Qed.

End PlannerFacts.

(** ** The planner: the timeout *)

Module PlannerTimeoutFacts.

Import AstarPriorityQueue AstarPriorityQueueFacts FloatOrder FloatOrderFacts FloatOrderMore.
Import Planner PlannerFacts.

Section TimeoutFacts.

Variable H : HeapAlgorithms.
Variable octree : OccupancyMapAdapter.
Variable bounds : GridBounds.
Variable cfg : Config.
Variable elapsed : nat -> float.
Variables start goal : OcTreeKey.

(** One iteration of [search_loop] is the poll of the clock, then
    [search_step]. *)
Lemma search_loop_unfold (fuel iter : nat) (st : SearchState) :
  search_loop H octree bounds cfg elapsed (S fuel) iter start goal st
  = if PrimFloat.ltb (planningTimeout cfg) (elapsed iter)
    then Some (timeout_outcome cfg start st)
    else match search_step H octree bounds cfg start goal st with
         | inl st' => search_loop H octree bounds cfg elapsed fuel (S iter) start goal st'
         | inr outcome => Some outcome
         end.
Proof.
  simpl. unfold timeout_outcome, search_step.
  destruct (PrimFloat.ltb (planningTimeout cfg) (elapsed iter)); [done|].
  destruct (pop_min H (open_list st)) as [[cur open']|]; [|done].
  destruct (closed_no_worse (closed_list st) cur); [done|].
  by destruct (isNodeGoal cfg goal cur).
Qed.

(** While the clock is within the timeout, the loop follows [run_steps]. *)
Lemma search_loop_run (n fuel iter : nat) (st st' : SearchState) :
  run_steps H octree bounds cfg n start goal st = Some st' ->
  (forall j, (j < n)%nat ->
     PrimFloat.ltb (planningTimeout cfg) (elapsed (iter + j)) = false) ->
  search_loop H octree bounds cfg elapsed (n + fuel) iter start goal st
  = search_loop H octree bounds cfg elapsed fuel (iter + n) start goal st'.
Proof.
  revert iter st. induction n as [|n IH]; intros iter st Hrun Hclock.
  - simpl in Hrun. injection Hrun as ->. by rewrite Nat.add_0_r.
  - change (S n + fuel)%nat with (S (n + fuel)). rewrite search_loop_unfold.
    pose proof (Hclock 0%nat ltac:(lia)) as Hnow. rewrite Nat.add_0_r in Hnow.
    rewrite Hnow. simpl in Hrun.
    destruct (search_step H octree bounds cfg start goal st) as [st1|]; [|done].
    rewrite (IH (S iter) st1 Hrun).
    + f_equal. lia.
    + intros j Hj. replace (S iter + j)%nat with (iter + S j)%nat by lia.
      apply Hclock. lia.
Qed.

Lemma search_step_best_lowest (st st' : SearchState) :
  best_lowest cfg st ->
  search_step H octree bounds cfg start goal st = inl st' ->
  best_lowest cfg st'.
Proof.
  intros Hbest. unfold search_step.
  destruct (pop_min H (open_list st)) as [[cur open']|]; [|done].
  destruct (closed_no_worse (closed_list st) cur); [by intros [= <-]|].
  destruct (isNodeGoal cfg goal cur); [done|]. intros [= <-].
  intros k n. simpl. rewrite lookup_insert. case_decide as Hk.
  - intros [= <-].
    destruct (PrimFloat.ltb (fallbackCost cfg cur) (fallbackCost cfg (best_node st)))
      eqn:Hlower; [apply ltb_irrefl|done].
  - intros Hn. specialize (Hbest k n Hn).
    destruct (PrimFloat.ltb (fallbackCost cfg cur) (fallbackCost cfg (best_node st)))
      eqn:Hlower; [|done].
    apply not_true_iff_false. intros Hn'.
    by rewrite (ltb_trans _ _ _ Hn' Hlower) in Hbest.
Qed.

Lemma run_steps_best_lowest (n : nat) (st st' : SearchState) :
  best_lowest cfg st ->
  run_steps H octree bounds cfg n start goal st = Some st' ->
  best_lowest cfg st'.
Proof.
  revert st. induction n as [|n IH]; intros st Hbest; simpl; [by intros [= <-]|].
  destruct (search_step H octree bounds cfg start goal st) as [st1|] eqn:Hstep; [|done].
  apply IH. by apply (search_step_best_lowest st).
Qed.

(** A reconstructed path ends with the node it was reconstructed from. *)
Lemma backtrack_ends (closed : gmap OcTreeKey Node) (fuel : nat) (n : Node)
    (acc : list Node) :
  exists pre, backtrack fuel closed start n acc = pre ++ n :: acc.
Proof.
  revert n acc. induction fuel as [|fuel IH]; intros n acc; simpl; case_decide;
    try by exists [].
  destruct (closed !! parent_key n) as [p|]; [|by exists []].
  destruct (IH p (n :: acc)) as [pre ->]. exists (pre ++ [p]).
  by rewrite <- app_assoc.
Qed.

End TimeoutFacts.



(** With [breakAtTimeout] and a timeout of 3.5 seconds the search on the map
    with the wall stops at its fourth poll, where the best node is still the
    start; with 10.5 seconds it stops one step short of the goal and returns
    the path to [(2, 1, 0)]; without the flag both calls fail. *)
Example timeout_break_example :
  option_map (fun o => getKeyPath (returned_path o)) (Deadline.plan 3.5%float true)
  = Some [mkKey 0 0 0]
  /\ option_map (fun o => getKeyPath (returned_path o)) (Deadline.plan 10.5%float true)
     = Some [mkKey 0 0 0; mkKey 0 1 0; mkKey 0 2 0; mkKey 0 3 0; mkKey 1 3 0;
             mkKey 2 3 0; mkKey 2 2 0; mkKey 2 1 0]
  /\ Deadline.plan 3.5%float false = Some (Failed Timeout)
  /\ Deadline.plan 10.5%float false = Some (Failed Timeout).
Proof. by vm_compute. Qed.

End PlannerTimeoutFacts.

(** ** The planner: the path after the safety inflation *)

Module SafetyInflationFacts.

Import AstarPriorityQueue Planner.


End SafetyInflationFacts.
